(** * The keyshare core (package keysharecore): PIN check, access tokens,
      commitments and responses.

    A shallow embedding of the engine's public operations
    ([GenerateKeyshareSecret], [DangerousBuildKeyshareSecret], [ValidatePin],
    [ValidateJWT], [ChangePin], [GenerateCommitments], [GenerateResponse]) and
    of the helpers [verifyAccess] and [padPin], followed by the properties
    the specification states about them. *)

From Stdlib Require Import ZArith NArith Lia Bool.
From Stdlib Require Import Strings.String Strings.Byte.
From stdpp Require Import base option list gmap strings.

Local Open Scope Z_scope.

(** ** Errors and results *)

(** The sentinel errors of the package, in the order of its [var] block.
    [ErrOther] stands for an error value handed up unchanged from a callee
    outside this file (crypto/rand, gabi, the packet cipher, the signer). *)
Inductive error : Type :=
  | ErrInvalidPin
  | ErrPinTooLong
  | ErrInvalidChallenge
  | ErrInvalidJWT
  | ErrKeyNotFound
  | ErrUnknownCommit
  | ErrOther (msg : string).

(** A Go result pair [(value, error)]: exactly one side is meaningful. *)
Inductive result (A : Type) : Type :=
  | Ok (a : A)
  | Err (e : error).
Arguments Ok {A} a.
Arguments Err {A} e.

Definition is_Ok {A} (r : result A) : bool :=
  match r with Ok _ => true | Err _ => false end.

(** ** Byte slices *)

Abbreviation bytes := (list byte).

(** Go's builtin [copy(dst, src)]: the first [min(len dst, len src)] elements
    of [dst] are overwritten by those of [src]. *)
Definition copy (dst src : bytes) : bytes :=
  take (length dst) src ++ drop (length src) dst.

(** [p[off:off+n]] read, and [copy(p[off:off+n], data)] written back into [p]. *)
Definition slice (off n : nat) (p : bytes) : bytes := take n (drop off p).

Definition splice (off n : nat) (data p : bytes) : bytes :=
  take off p ++ copy (slice off n p) data ++ drop (off + n) p.

(** ** crypto/subtle and crypto/hmac *)

(** [ConstantTimeByteEq(x, y) = int((uint32(x^y) - 1) >> 31)], the subtraction
    wrapping around at 32 bits. *)
Definition ConstantTimeByteEq (x y : N) : N :=
  N.shiftr ((N.lxor x y + (2 ^ 32 - 1)) mod 2 ^ 32) 31.

(** The loop [for i := 0; i < len(x); i++ { v |= x[i] ^ y[i] }]. *)
Fixpoint xor_fold (v : N) (x y : bytes) : N :=
  match x, y with
  | a :: x', b :: y' => xor_fold (N.lor v (N.lxor (Byte.to_N a) (Byte.to_N b))) x' y'
  | _, _ => v
  end.

Definition ConstantTimeCompare (x y : bytes) : N :=
  if negb (length x =? length y)%nat then 0%N
  else ConstantTimeByteEq (xor_fold 0 x y) 0.

Definition hmac_Equal (mac1 mac2 : bytes) : bool :=
  (ConstantTimeCompare mac1 mac2 =? 1)%N.

(** ** PIN padding *)

(** Pad pin string into 64 bytes, extending it with 0s if necessary. *)
Definition padPin (pin : string) : result bytes :=
  let data := list_byte_of_string pin in
  if (64 <? length data)%nat then Err ErrPinTooLong
  else
    let res := replicate 64 x00 in
    Ok (copy res data).

(** ** Big integers as fixed-width big-endian bytes *)

Definition byte_of_Z (z : Z) : byte := default x00 (Byte.of_N (Z.to_N z)).

(** [big.Int.SetBytes]: the bytes read as a big-endian unsigned integer. *)
Definition SetBytes (bs : bytes) : Z :=
  fold_left (fun acc b => acc * 256 + Z.of_N (Byte.to_N b)) bs 0.

(** The [n] low-order base-256 digits of [z], most significant first. *)
Fixpoint be_bytes (n : nat) (z : Z) : bytes :=
  match n with
  | O => []
  | S n' => be_bytes n' (z / 256) ++ [byte_of_Z (z mod 256)]
  end.

(** [binary.LittleEndian] decoding of an unsigned integer. *)
Definition le_uint (bs : bytes) : N :=
  fold_right (fun b acc => Byte.to_N b + 256 * acc)%N 0%N bs.

(** ** The unencrypted keyshare packet *)

Abbreviation unencryptedKeysharePacket := bytes (only parsing).
Abbreviation EncryptedKeysharePacket := bytes (only parsing).

(** Modelled from the spec: the packet codec (type
    [unencryptedKeysharePacket] and its accessors [pin], [setPin],
    [keyshareSecret], [setKeyshareSecret], [id], [setID]) is declared outside
    the files at hand.  The spec fixes the layout: [pin_hash] (64 bytes), then
    [secret] ([n] bytes, a big-endian integer, fixed width, padded), then
    [id] (32 bytes); encoding is the raw concatenation and decoding slices at
    the known offsets.  The width [n] of the secret is left open by the spec
    and is a parameter here.  [setKeyshareSecret] reports an error for a
    value with no such representation (negative, or wider than [n] bytes). *)
Module Packet.
Definition len (n : nat) : nat := (64 + n + 32)%nat.

(** [var p unencryptedKeysharePacket]: the zero value. *)
Definition zero (n : nat) : unencryptedKeysharePacket := replicate (len n) x00.

Definition pin (p : unencryptedKeysharePacket) : bytes := slice 0 64 p.

Definition setPin (pw : bytes) (p : unencryptedKeysharePacket)
  : unencryptedKeysharePacket := splice 0 64 pw p.

Definition keyshareSecret (n : nat) (p : unencryptedKeysharePacket) : Z :=
  SetBytes (slice 64 n p).

Definition setKeyshareSecret (n : nat) (val : Z) (p : unencryptedKeysharePacket)
  : result unencryptedKeysharePacket :=
  if (val <? 0) || (256 ^ Z.of_nat n <=? val)
  then Err (ErrOther "keyshare secret out of range")
  else Ok (splice 64 n (be_bytes n val) p).

Definition id (n : nat) (p : unencryptedKeysharePacket) : bytes :=
  slice (64 + n) 32 p.

Definition setID (n : nat) (i : bytes) (p : unencryptedKeysharePacket)
  : unencryptedKeysharePacket := splice (64 + n) 32 i p.
End Packet.

(** ** The state a call runs in *)

(** [commitmentData] is the one field of [Core] written after construction
    (always inside [commitmentMutex], so each critical section is one step
    here).  The process's entropy source ([crypto/rand]) is a tape of bytes,
    a read failing when the tape runs short; the wall clock is the sequence of
    values successive reads of [time.Now()] return, in nanoseconds since the
    epoch, [ticks] counting the reads made so far. *)
Record World : Type := mkWorld {
  commitmentData : gmap N Z;
  entropy : bytes;
  clock : nat -> Z;
  ticks : nat;
}.

Definition set_commitmentData (m : gmap N Z) (w : World) : World :=
  mkWorld m (entropy w) (clock w) (ticks w).
Definition set_entropy (e : bytes) (w : World) : World :=
  mkWorld (commitmentData w) e (clock w) (ticks w).
Definition tick (w : World) : World :=
  mkWorld (commitmentData w) (entropy w) (clock w) (S (ticks w)).

(** State and error passing: a failing step keeps the state it reached. *)
Definition M (A : Type) : Type := World -> result A * World.

Definition ret {A} (a : A) : M A := fun w => (Ok a, w).
Definition fail {A} (e : error) : M A := fun w => (Err e, w).
Definition lift {A} (r : result A) : M A := fun w => (r, w).
Definition bind {A B} (m : M A) (k : A -> M B) : M B :=
  fun w =>
    match m w with
    | (Ok a, w') => k a w'
    | (Err e, w') => (Err e, w')
    end.

Notation "'let*' x := m 'in' k" := (bind m (fun x => k))
  (at level 10, x pattern, m at level 100, k at level 200, only parsing).

(** [if err != nil { return ..., e }]: any error of [m] is replaced by [e]. *)
Definition or_else {A} (e : error) (m : M A) : M A :=
  fun w =>
    match m w with
    | (Ok a, w') => (Ok a, w')
    | (Err _, w') => (Err e, w')
    end.

(** [time.Now()], with [Time.Add], [Time.Unix] and [time.Minute]. *)
Definition time_Now : M Z := fun w => (Ok (clock w (ticks w)), tick w).
Definition Add (t d : Z) : Z := t + d.
Definition Unix (t : Z) : Z := t / 1000000000.
Definition Minute : Z := 60 * 1000000000.

(** [rand.Read(buf)] for a buffer of [n] bytes. *)
Definition rand_Read (n : nat) : M bytes :=
  fun w =>
    if (n <=? length (entropy w))%nat
    then (Ok (take n (entropy w)), set_entropy (drop n (entropy w)) w)
    else (Err (ErrOther "crypto/rand"), w).

(** A library call that draws from the entropy source and from nothing else
    of the state. *)
Definition drawing {A} (f : bytes -> result A * bytes) : M A :=
  fun w => let '(r, e) := f (entropy w) in (r, set_entropy e w).

(** [c.commitmentData[commitID] = commitSecret]. *)
Definition store_commit (commitID : N) (commitSecret : Z) : M unit :=
  fun w => (Ok tt, set_commitmentData (<[commitID := commitSecret]> (commitmentData w)) w).

(** [commit, ok := c.commitmentData[commitID]; delete(c.commitmentData, commitID)]. *)
Definition fetch_commit (commitID : N) : M (option Z) :=
  fun w => (Ok (commitmentData w !! commitID),
            set_commitmentData (delete commitID (commitmentData w)) w).

(** ** What the engine takes from its libraries *)

(** Data the engine passes around without looking inside: the RSA signing
    key pair, the Idemix public keys and commitments of gabi, the key set of
    the packet cipher, and the compact serialisation of a signed token (a Go
    string that only jwt-go writes and reads). *)
Class Opaque : Type := {
  PrivateKey : Type;
  RSAPublicKey : Type;
  IdemixPublicKey : Type;
  ProofPCommitment : Type;
  CipherKeys : Type;
  jws : Type;
}.

(** The registered signing methods of jwt-go. *)
Inductive SigningMethod : Type :=
  | SigningMethodHS256 | SigningMethodHS384 | SigningMethodHS512
  | SigningMethodRS256 | SigningMethodRS384 | SigningMethodRS512
  | SigningMethodPS256 | SigningMethodPS384 | SigningMethodPS512
  | SigningMethodES256 | SigningMethodES384 | SigningMethodES512
  | SigningMethodNone.

#[global] Instance SigningMethod_eq_dec : EqDecision SigningMethod.
Proof. solve_decision. Defined.

Definition Alg (m : SigningMethod) : string :=
  match m with
  | SigningMethodHS256 => "HS256" | SigningMethodHS384 => "HS384"
  | SigningMethodHS512 => "HS512"
  | SigningMethodRS256 => "RS256" | SigningMethodRS384 => "RS384"
  | SigningMethodRS512 => "RS512"
  | SigningMethodPS256 => "PS256" | SigningMethodPS384 => "PS384"
  | SigningMethodPS512 => "PS512"
  | SigningMethodES256 => "ES256" | SigningMethodES384 => "ES384"
  | SigningMethodES512 => "ES512"
  | SigningMethodNone => "none"
  end.

Definition signingMethods : list SigningMethod :=
  [ SigningMethodHS256; SigningMethodHS384; SigningMethodHS512;
    SigningMethodRS256; SigningMethodRS384; SigningMethodRS512;
    SigningMethodPS256; SigningMethodPS384; SigningMethodPS512;
    SigningMethodES256; SigningMethodES384; SigningMethodES512;
    SigningMethodNone ].

(** [jwt.GetSigningMethod(alg)]: [None] is Go's [nil]. *)
Definition GetSigningMethod (alg : string) : option SigningMethod :=
  find (fun m => String.eqb (Alg m) alg) signingMethods.

(** [gabi.ProofP]: the keyshare server's part of a proof. *)
Record ProofP : Type := mkProofP {
  ProofP_P : Z;
  ProofP_C : Z;
  ProofP_SResponse : Z;
}.

(** A value held in a claims or header map ([interface{}]).  Numbers are
    kept by their integer value: the engine writes [int64] seconds, and
    jwt-go reads a decoded number, a [float64], back through [int64(...)].
    For an integer of magnitude up to [2 ^ 53] the [float64] is that integer
    and the conversion gives it back; beyond the range of [int64] the
    conversion gives what the platform gives, which the integers here do not
    follow.  A statement that a token is accepted for the numbers it carries
    therefore bounds them. *)
Inductive Value : Type :=
  | VNull
  | VBool (b : bool)
  | VNum (z : Z)
  | VStr (s : string)
  | VProofP (p : ProofP).

(** [jwt.MapClaims], [map[string]interface{}]. *)
Abbreviation MapClaims := (gmap string Value) (only parsing).

(** [jwt.Token]. *)
Record Token : Type := mkToken {
  Method : SigningMethod;
  Header : gmap string Value;
  Claims : MapClaims;
}.

(** [jwt.NewWithClaims(method, claims)]. *)
Definition jwt_NewWithClaims (method : SigningMethod) (claims : MapClaims)
  : Token :=
  mkToken method
          (<["typ" := VStr "JWT"]> (<["alg" := VStr (Alg method)]> ∅))
          claims.

(** [token.Header[k] = v]. *)
Definition set_Header (k : string) (v : Value) (t : Token) : Token :=
  mkToken (Method t) (<[k := v]> (Header t)) (Claims t).

(** jwt-go v3 ([github.com/dgrijalva/jwt-go]), claims.go: the helpers behind
    the time checks, [now <= exp], [now >= iat] and [now >= nbf], a zero
    value counting as an absent one. *)
Definition verifyExp (exp now : Z) (required : bool) : bool :=
  if exp =? 0 then negb required else now <=? exp.
Definition verifyIat (iat now : Z) (required : bool) : bool :=
  if iat =? 0 then negb required else iat <=? now.
Definition verifyNbf (nbf now : Z) (required : bool) : bool :=
  if nbf =? 0 then negb required else nbf <=? now.

(** jwt-go, map_claims.go: a claim that is absent or is no number passes
    exactly when it is not required. *)
Definition VerifyExpiresAt (m : MapClaims) (cmp : Z) (req : bool) : bool :=
  match m !! "exp" with
  | Some (VNum exp) => verifyExp exp cmp req
  | _ => negb req
  end.
Definition VerifyIssuedAt (m : MapClaims) (cmp : Z) (req : bool) : bool :=
  match m !! "iat" with
  | Some (VNum iat) => verifyIat iat cmp req
  | _ => negb req
  end.
Definition VerifyNotBefore (m : MapClaims) (cmp : Z) (req : bool) : bool :=
  match m !! "nbf" with
  | Some (VNum nbf) => verifyNbf nbf cmp req
  | _ => negb req
  end.

(** [MapClaims.Valid() == nil]: one clock read ([now := TimeFunc().Unix()]),
    then the three time claims, none of them required. *)
Definition valid_at (m : MapClaims) (now : Z) : bool :=
  VerifyExpiresAt m now false
  && VerifyIssuedAt m now false
  && VerifyNotBefore m now false.

Definition Valid (m : MapClaims) : M bool :=
  let* t := time_Now in
  let now := Unix t in
  ret (valid_at m now).

(** The calls into jwt-go and crypto/rsa, encoding/base64, gabi, and the
    packet cipher of the package ([encryptPacket], [decryptPacket], declared
    outside the files at hand, as is the width of the packet's secret). *)
Class Library `{Opaque} : Type := {
  (** [&key.PublicKey] *)
  PublicKey_of : PrivateKey -> RSAPublicKey;
  (** [token.SignedString(key)], taken as a function of the token and the
      key: what the RSA signer may draw from [crypto/rand] on the way is not
      drawn from the entropy source of the state *)
  SignedString : Token -> PrivateKey -> result jws;
  (** the header and claims segments of a compact token, decoded *)
  jws_decode : jws -> option (gmap string Value * gmap string Value);
  (** [method.Verify(signingString, signature, key) == nil] on the parts of a
      compact token *)
  Method_Verify : SigningMethod -> jws -> RSAPublicKey -> bool;
  (** [base64.StdEncoding] *)
  EncodeToString : bytes -> string;
  DecodeString : string -> option bytes;
  (** gabi; the first two draw from the entropy source *)
  NewKeyshareSecret : bytes -> result Z * bytes;
  NewKeyshareCommitments :
    Z -> list IdemixPublicKey -> bytes -> result (Z * list ProofPCommitment) * bytes;
  KeyshareResponse : Z -> Z -> Z -> IdemixPublicKey -> ProofP;
  (** the packet cipher; sealing draws its nonce from the entropy source *)
  secretLen : nat;
  aead_Seal : CipherKeys -> unencryptedKeysharePacket -> bytes
              -> result EncryptedKeysharePacket * bytes;
  aead_Open : CipherKeys -> EncryptedKeysharePacket -> result unencryptedKeysharePacket;
}.

(** [gabi.DefaultSystemParameters[1024].Lh]. *)
Definition Lh : Z := 256.

(** [big.Int.BitLen]: the length of the absolute value in bits, 0 for 0. *)
Definition BitLen (x : Z) : Z :=
  if x =? 0 then 0 else Z.log2 (Z.abs x) + 1.

(** [irma.PublicKeyIdentifier]: issuer and counter. *)
Abbreviation PublicKeyIdentifier := (string * Z)%type (only parsing).

(** ** The engine *)

Section Engine.
Context `{Library}.

(** The fields of [Core] that are set at construction and read afterwards.
    [cipherKeys] stands for whatever key material the packet cipher keeps
    there. *)
Record Core : Type := mkCore {
  signKey : PrivateKey;
  signKeyID : Z;
  trustedKeys : gmap PublicKeyIdentifier IdemixPublicKey;
  cipherKeys : CipherKeys;
}.

(** Modelled from the spec: [encryptPacket] and [decryptPacket] are
    declared outside the files at hand.  Encryption is authenticated
    encryption under the engine's keys with a nonce from the CSPRNG;
    decryption either returns a packet or fails. *)
Definition encryptPacket (c : Core) (p : unencryptedKeysharePacket)
  : M EncryptedKeysharePacket :=
  drawing (aead_Seal (cipherKeys c) p).

Definition decryptPacket (c : Core) (ep : EncryptedKeysharePacket)
  : M unencryptedKeysharePacket :=
  lift (aead_Open (cipherKeys c) ep).

(** jwt-go, [Parser.ParseUnverified]: decode the segments, then look the
    method up from the header's [alg]. *)
Definition ParseUnverified (tokenString : jws) : result Token :=
  match jws_decode tokenString with
  | None => Err (ErrOther "token is malformed")
  | Some (header, claims) =>
      match header !! "alg" with
      | Some (VStr alg) =>
          match GetSigningMethod alg with
          | Some method => Ok (mkToken method header claims)
          | None => Err (ErrOther "signing method (alg) is unavailable.")
          end
      | _ => Err (ErrOther "signing method (alg) is unspecified.")
      end
  end.

(** jwt-go, [Parse]: unverified parse, key lookup, claims validation, then
    the signature; the token is returned only when both checks pass. *)
Definition jwt_Parse (tokenString : jws) (keyFunc : Token -> result RSAPublicKey)
  : M Token :=
  let* token := lift (ParseUnverified tokenString) in
  let* key := lift (keyFunc token) in
  let* claimsOk := Valid (Claims token) in
  let sigOk := Method_Verify (Method token) tokenString key in
  if claimsOk && sigOk then ret token
  else fail (ErrOther "token is invalid").

(** Pad pin, draw secret and id, build the packet, encrypt. *)
Definition GenerateKeyshareSecret (c : Core) (pinRaw : string)
  : M EncryptedKeysharePacket :=
  let* pin := lift (padPin pinRaw) in
  let* keyshareSecret := drawing NewKeyshareSecret in
  let* id := rand_Read 32 in
  let p := Packet.zero secretLen in
  let p := Packet.setPin pin p in
  let* p := lift (Packet.setKeyshareSecret secretLen keyshareSecret p) in
  let p := Packet.setID secretLen id p in
  encryptPacket c p.

Definition DangerousBuildKeyshareSecret (c : Core) (pinRaw : string) (secret : Z)
  : M EncryptedKeysharePacket :=
  let* pin := lift (padPin pinRaw) in
  let* id := rand_Read 32 in
  let p := Packet.zero secretLen in
  let p := Packet.setPin pin p in
  let* p := lift (Packet.setKeyshareSecret secretLen secret p) in
  let p := Packet.setID secretLen id p in
  encryptPacket c p.

(** The token [ValidatePin] signs: [iat] and [exp] come from two reads of
    the clock, [t1] and then [t2]. *)
Definition newAccessToken (c : Core) (userID : string) (id : bytes) (t1 t2 : Z)
  : Token :=
  let token :=
    jwt_NewWithClaims SigningMethodRS256
      (list_to_map
         [ ("iss", VStr "keyshare_server");
           ("sub", VStr "auth_tok");
           ("iat", VNum (Unix t1));
           ("exp", VNum (Unix (Add t2 (3 * Minute))));
           ("user_id", VStr userID);
           ("token_id", VStr (EncodeToString id)) ]) in
  set_Header "kid" (VNum (signKeyID c)) token.

(** Check pin for validity, and generate jwt for future access. *)
Definition ValidatePin (c : Core) (ep : EncryptedKeysharePacket)
    (pin userID : string) : M jws :=
  let* paddedPin := lift (padPin pin) in
  let* p := decryptPacket c ep in
  let refPin := Packet.pin p in
  if negb (hmac_Equal refPin paddedPin) then fail ErrInvalidPin
  else
    let id := Packet.id secretLen p in
    let* t1 := time_Now in
    let* t2 := time_Now in
    lift (SignedString (newAccessToken c userID id t1 t2) (signKey c)).

(** Verify that a given access jwt is valid, and if so, return decrypted
    keyshare packet. *)
Definition verifyAccess (c : Core) (ep : EncryptedKeysharePacket) (jwtToken : jws)
  : M unencryptedKeysharePacket :=
  let* token :=
    or_else ErrInvalidJWT
      (jwt_Parse jwtToken (fun token =>
         if negb (bool_decide (Method token = SigningMethodRS256))
         then Err ErrInvalidJWT
         else Ok (PublicKey_of (signKey c)))) in
  let claims := Claims token in
  let* valid := Valid claims in
  if negb valid then fail ErrInvalidJWT
  else
    let* t := time_Now in
    if negb (VerifyExpiresAt claims (Unix t) true) then fail ErrInvalidJWT
    else
      match claims !! "token_id" with
      | None => fail ErrInvalidJWT
      | Some (VStr tokenIDB64) =>
          match DecodeString tokenIDB64 with
          | None => fail ErrInvalidJWT
          | Some tokenID =>
              let* p := decryptPacket c ep in
              let refId := Packet.id secretLen p in
              if negb (hmac_Equal refId tokenID) then fail ErrInvalidJWT
              else ret p
          end
      | Some _ => fail ErrInvalidJWT
      end.

(** Check whether the given JWT is currently valid as an access token for
    operations on the provided encrypted keyshare packet. *)
Definition ValidateJWT (c : Core) (ep : EncryptedKeysharePacket) (jwt : jws)
  : M unit :=
  let* _ := verifyAccess c ep jwt in
  ret tt.

(** Change pin in an encrypted keyshare packet to a new value, after
    validating that the old value is known by caller. *)
Definition ChangePin (c : Core) (ep : EncryptedKeysharePacket)
    (oldpinRaw newpinRaw : string) : M EncryptedKeysharePacket :=
  let* oldpin := lift (padPin oldpinRaw) in
  let* newpin := lift (padPin newpinRaw) in
  let* p := decryptPacket c ep in
  let refPin := Packet.pin p in
  if negb (hmac_Equal refPin oldpin) then fail ErrInvalidPin
  else
    let* id := rand_Read 32 in
    let p := Packet.setPin newpin p in
    let p := Packet.setID secretLen id p in
    encryptPacket c p.

(** The loop of [GenerateCommitments] that resolves the key identifiers. *)
Fixpoint buildKeyList (c : Core) (keyIDs : list PublicKeyIdentifier)
    (keyList : list IdemixPublicKey) : result (list IdemixPublicKey) :=
  match keyIDs with
  | [] => Ok keyList
  | keyID :: rest =>
      match trustedKeys c !! keyID with
      | None => Err ErrKeyNotFound
      | Some key => buildKeyList c rest (keyList ++ [key])
      end
  end.

(** Get keyshare commitment using given idemix public key(s). *)
Definition GenerateCommitments (c : Core) (ep : EncryptedKeysharePacket)
    (accessToken : jws) (keyIDs : list PublicKeyIdentifier)
  : M (list ProofPCommitment * N) :=
  let* keyList := lift (buildKeyList c keyIDs []) in
  let* p := verifyAccess c ep accessToken in
  let* (commitSecret, commitments) :=
    drawing (NewKeyshareCommitments (Packet.keyshareSecret secretLen p) keyList) in
  let* raw := rand_Read 8 in
  let commitID := le_uint raw in
  let* _ := store_commit commitID commitSecret in
  ret (commitments, commitID).

(** The token [GenerateResponse] signs. *)
Definition newResponseToken (c : Core) (proofP : ProofP) (t : Z) : Token :=
  let token :=
    jwt_NewWithClaims SigningMethodRS256
      (list_to_map
         [ ("ProofP", VProofP proofP);
           ("iat", VNum (Unix t));
           ("sub", VStr "ProofP");
           ("iss", VStr "keyshare_server") ]) in
  set_Header "kid" (VNum (signKeyID c)) token.

(** Generate response for zero-knowledge proof of keyshare secret, for a
    given previous commit and challenge. *)
Definition GenerateResponse (c : Core) (ep : EncryptedKeysharePacket)
    (accessToken : jws) (commitID : N) (challenge : Z)
    (keyID : PublicKeyIdentifier) : M jws :=
  if (Lh <? BitLen challenge) || (challenge <? 0) then fail ErrInvalidChallenge
  else
    match trustedKeys c !! keyID with
    | None => fail ErrKeyNotFound
    | Some key =>
        let* p := verifyAccess c ep accessToken in
        let* commit := fetch_commit commitID in
        match commit with
        | None => fail ErrUnknownCommit
        | Some commit =>
            let proofP :=
              KeyshareResponse (Packet.keyshareSecret secretLen p) commit challenge key in
            let* t := time_Now in
            lift (SignedString (newResponseToken c proofP t) (signKey c))
        end
    end.
End Engine.

(** ** What is assumed of the libraries *)

Section Laws.
Context `{Library}.

(** Opening what was sealed under the same keys gives the packet back. *)
Definition cipher_round_trip : Prop :=
  forall k p e ep e',
    length p = Packet.len secretLen ->
    aead_Seal k p e = (Ok ep, e') -> aead_Open k ep = Ok p.

(** A decrypted packet is a value of the fixed-size packet type. *)
Definition packets_sized : Prop :=
  forall k ep p, aead_Open k ep = Ok p -> length p = Packet.len secretLen.

(** Decoding a standard base64 encoding gives the bytes back. *)
Definition base64_round_trip : Prop :=
  forall b, DecodeString (EncodeToString b) = Some b.

(** The segments of a token serialised by [SignedString] decode to its
    header and claims. *)
Definition jws_round_trip : Prop :=
  forall t k s, SignedString t k = Ok s -> jws_decode s = Some (Header t, Claims t).

(** RS256 signing under the key of the engine does not fail. *)
Definition signs (k : PrivateKey) : Prop :=
  forall t, Method t = SigningMethodRS256 -> exists s, SignedString t k = Ok s.
End Laws.

(** ** An idealised instance of the libraries

    Signatures are symbolic: a compact token is its header, its claims and
    the number of the key that signed it, and a signature verifies under the
    public key of that number.  The cipher prefixes a key version byte and a
    twelve-byte nonce to the packet; base64 is the identity on bytes.  The
    instance runs the engine on concrete inputs. *)
Module Ideal.
Definition opaque : Opaque := {|
  PrivateKey := Z;
  RSAPublicKey := Z;
  IdemixPublicKey := Z;
  ProofPCommitment := Z;
  CipherKeys := byte;
  jws := (gmap string Value * gmap string Value * Z)%type;
|}.

Definition seal (k : byte) (p e : bytes) : result bytes * bytes :=
  if (12 <=? length e)%nat then (Ok (k :: take 12 e ++ p), drop 12 e)
  else (Err (ErrOther "crypto/rand"), e).

Definition open (n : nat) (k : byte) (ep : bytes) : result bytes :=
  match ep with
  | v :: rest =>
      if Byte.eqb v k && (length rest =? 12 + Packet.len n)%nat
      then Ok (drop 12 rest)
      else Err (ErrOther "invalid packet")
  | [] => Err (ErrOther "invalid packet")
  end.

Definition draw_secret (e : bytes) : result Z * bytes :=
  match e with
  | b :: e' => (Ok (Z.of_N (Byte.to_N b)), e')
  | [] => (Err (ErrOther "crypto/rand"), e)
  end.

Definition draw_commitments (secret : Z) (keys : list Z) (e : bytes)
  : result (Z * list Z) * bytes :=
  match e with
  | b :: e' =>
      let r := Z.of_N (Byte.to_N b) in (Ok (r, map (fun k => k * r) keys), e')
  | [] => (Err (ErrOther "crypto/rand"), e)
  end.

Definition compact : Type := (gmap string Value * gmap string Value * Z)%type.

Definition sign (t : Token) (k : Z) : result compact := Ok (Header t, Claims t, k).

Definition verify (m : SigningMethod) (s : compact) (pub : Z) : bool :=
  bool_decide (m = SigningMethodRS256) && (snd s =? pub).

Definition respond (secret commit challenge key : Z) : ProofP :=
  mkProofP key challenge (commit + challenge * secret).

Definition library : @Library opaque :=
  @Build_Library opaque
    (fun k : Z => k)
    sign
    (fun s : compact => Some (fst s))
    verify
    string_of_list_byte
    (fun s => Some (list_byte_of_string s))
    draw_secret
    draw_commitments
    respond
    4%nat
    seal
    (open 4).

(** An engine with signing key 7, one trusted Idemix key, cipher key
    version 1. *)
Definition core : @Core opaque :=
  @mkCore opaque 7 1 {[ ("irma-demo.MijnOverheid", 2) := 11 ]} x01.

(** An empty store, 128 bytes of entropy, and a clock that stays at
    second 1700000000. *)
Definition entropy0 : bytes :=
  map (fun i => byte_of_Z (Z.of_nat i)) (seq 1 128).

Definition steady (t : Z) : nat -> Z := fun _ => t * 1000000000.

Definition world0 : World := mkWorld ∅ entropy0 (steady 1700000000) 0.

Definition or_default {A} (d : A) (r : result A) : A :=
  match r with Ok a => a | Err _ => d end.

(** A session: a packet for PIN "1234", its access token, one commitment. *)
Definition ep1 : bytes :=
  Eval vm_compute in
    or_default [] (fst (@GenerateKeyshareSecret opaque library core "1234" world0)).

Definition world1 : World :=
  Eval vm_compute in snd (@GenerateKeyshareSecret opaque library core "1234" world0).

Definition packet1 : bytes :=
  Eval vm_compute in or_default [] (open 4 x01 ep1).

Definition token1 : compact :=
  Eval vm_compute in
    or_default (∅, ∅, 0) (fst (@ValidatePin opaque library core ep1 "1234" "u" world1)).

Definition world2 : World :=
  Eval vm_compute in snd (@ValidatePin opaque library core ep1 "1234" "u" world1).

Definition keyID1 : string * Z := ("irma-demo.MijnOverheid", 2).

Definition commitID1 : N :=
  Eval vm_compute in
    snd (or_default ([], 0%N)
           (fst (@GenerateCommitments opaque library core ep1 token1 [keyID1] world2))).

Definition world3 : World :=
  Eval vm_compute in
    snd (@GenerateCommitments opaque library core ep1 token1 [keyID1] world2).

(** The packet after a change of PIN from "1234" to "5678". *)
Definition ep2 : bytes :=
  Eval vm_compute in
    or_default [] (fst (@ChangePin opaque library core ep1 "1234" "5678" world3)).

Definition world4 : World :=
  Eval vm_compute in snd (@ChangePin opaque library core ep1 "1234" "5678" world3).

(** The PIN "1234" followed by one zero byte. *)
Definition pin_nul : string := String.append "1234" (string_of_list_byte [x00]).

(** The moment [token1] expires: the clock reads its [exp], 1700000180. *)
Definition world_expiry : World := mkWorld ∅ [] (steady 1700000180) 0.

(** A clock that passes from second 1699999999 to second 1700000000
    between its first two readings. *)
Definition ticking : nat -> Z :=
  fun n => 1699999999999999999 + 2 * Z.of_nat n.

Definition world_ticking : World := mkWorld ∅ [] ticking 0.

Definition token_ticking : compact :=
  Eval vm_compute in
    or_default (∅, ∅, 0)
      (fst (@ValidatePin opaque library core ep1 "1234" "u" world_ticking)).

Definition rs256_header : gmap string Value :=
  <["typ" := VStr "JWT"]> (<["alg" := VStr "RS256"]> ∅).

(** Tokens for [ep1] signed by the engine's key 7, with an expiry ahead of
    [world2] and the right [token_id], and none of [iss], [sub], [user_id]:
    one with these two claims only, one with an [nbf] far ahead as well. *)
Definition bare_claims : gmap string Value :=
  <["exp" := VNum 1700000180]>
    (<["token_id" := VStr (string_of_list_byte (Packet.id 4 packet1))]> ∅).

Definition token_bare : compact :=
  Eval vm_compute in
    or_default (∅, ∅, 0) (sign (mkToken SigningMethodRS256 rs256_header bare_claims) 7).

Definition token_nbf : compact :=
  Eval vm_compute in
    or_default (∅, ∅, 0)
      (sign (mkToken SigningMethodRS256 rs256_header
               (<["nbf" := VNum 1800000000]> bare_claims)) 7).

(** [token1] with the header of an unsigned token. *)
Definition token_none : compact :=
  Eval vm_compute in
    (<["alg" := VStr "none"]> (fst (fst token1)), snd (fst token1), 0).
End Ideal.

(** ** Vocabulary of the statements *)

(** Two byte strings that differ at most by zero bytes at the end of one. *)
Definition same_but_trailing_zeros (a b : bytes) : Prop :=
  exists k, a = b ++ replicate k x00 \/ b = a ++ replicate k x00.

(** A computation that leaves the commitment store as it found it, on
    every path. *)
Definition keeps_store {A} (m : M A) : Prop :=
  forall w, commitmentData (snd (m w)) = commitmentData w.

Section Vocabulary.
Context `{Library}.

(** The checks [GenerateResponse] makes before it touches the commitment
    store: challenge in bounds, key known, access verified. *)
Definition challenge_ok (challenge : Z) : bool :=
  negb ((Lh <? BitLen challenge) || (challenge <? 0)).

Definition checks_pass (c : Core) (ep : EncryptedKeysharePacket) (accessToken : jws)
    (challenge : Z) (keyID : PublicKeyIdentifier) (w : World) : Prop :=
  challenge_ok challenge = true
  /\ is_Some (trustedKeys c !! keyID)
  /\ is_Ok (fst (verifyAccess c ep accessToken w)) = true.

(** The [i]-th reading of the clock from state [w] on, in Unix seconds. *)
Definition reading (w : World) (i : nat) : Z := Unix (clock w (ticks w + i)).

(** The part of [verifyAccess] that looks at the token only, in the order of
    the code: parse, method, claims and signature inside [jwt.Parse] (first
    reading of the clock), claims again (second reading), required expiry
    (third reading), then the [token_id] claim, decoded. *)
Definition token_checks (c : Core) (s : jws) (w : World) : option bytes :=
  match ParseUnverified s with
  | Ok token =>
      if bool_decide (Method token = SigningMethodRS256)
         && (valid_at (Claims token) (reading w 0)
             && Method_Verify (Method token) s (PublicKey_of (signKey c)))
         && valid_at (Claims token) (reading w 1)
         && VerifyExpiresAt (Claims token) (reading w 2) true
      then
        match Claims token !! "token_id" with
        | Some (VStr tokenIDB64) => DecodeString tokenIDB64
        | _ => None
        end
      else None
  | Err _ => None
  end.

(** The ways in which a token presented with packet [ep] in state [w] can
    be wrong: unreadable; an algorithm other than RS256; a signature that
    does not verify under the engine's key; no usable expiry (absent, no
    number, or zero); an expiry that one of the three readings of the clock
    has passed; no usable [token_id] (absent, no string, or no base64); a
    [token_id] other than the id of the decrypted packet. *)
Inductive defect (c : Core) (ep : EncryptedKeysharePacket) (s : jws) (w : World)
  : Prop :=
  | defect_malformed :
      jws_decode s = None -> defect c ep s w
  | defect_algorithm hdr cl :
      jws_decode s = Some (hdr, cl) ->
      hdr !! "alg" <> Some (VStr "RS256") -> defect c ep s w
  | defect_signature :
      Method_Verify SigningMethodRS256 s (PublicKey_of (signKey c)) = false ->
      defect c ep s w
  | defect_no_expiry hdr cl :
      jws_decode s = Some (hdr, cl) ->
      (forall e, cl !! "exp" = Some (VNum e) -> e = 0) -> defect c ep s w
  | defect_expired hdr cl e i :
      jws_decode s = Some (hdr, cl) ->
      cl !! "exp" = Some (VNum e) -> (i < 3)%nat -> e < reading w i ->
      defect c ep s w
  | defect_token_id hdr cl :
      jws_decode s = Some (hdr, cl) ->
      (forall b64, cl !! "token_id" = Some (VStr b64) -> DecodeString b64 = None) ->
      defect c ep s w
  | defect_binding hdr cl b64 tokenID p :
      jws_decode s = Some (hdr, cl) ->
      cl !! "token_id" = Some (VStr b64) -> DecodeString b64 = Some tokenID ->
      aead_Open (cipherKeys c) ep = Ok p -> tokenID <> Packet.id secretLen p ->
      defect c ep s w.
End Vocabulary.

(** ** Further vocabulary *)

(** A computation that draws nothing from the entropy source, and one that
    does not read the clock, on every path. *)
Definition keeps {X A} (f : World -> X) (m : M A) : Prop :=
  forall w, f (snd (m w)) = f w.

Abbreviation keeps_entropy := (keeps entropy) (only parsing).
Abbreviation keeps_ticks := (keeps ticks) (only parsing).

Section MoreLaws.
Context `{Library}.

(** What [SignedString] produced for an RS256 token under a key verifies
    under its public key. *)
Definition signature_valid : Prop :=
  forall t k s, Method t = SigningMethodRS256 -> SignedString t k = Ok s ->
    Method_Verify SigningMethodRS256 s (PublicKey_of k) = true.

(** The key list [GenerateCommitments] resolves: every identifier looked up,
    in order. *)
Definition resolve (c : Core) (keyIDs : list PublicKeyIdentifier)
  : option (list IdemixPublicKey) :=
  mapM (fun keyID => trustedKeys c !! keyID) keyIDs.
End MoreLaws.

(** ** The metadata attribute (package irmago, attributes)

    A [MetadataAttribute] is its [Int]; the cached public key [pk] is looked
    up in a store outside the files at hand and is left out, with
    [PublicKey], [CredentialType] and [setCredentialIdentifier] (SHA-256).
    A panic is rendered as an error result. *)

(** [big.Int.Bytes]: the absolute value in big-endian bytes, without leading
    zero bytes; empty for 0. *)
Definition Int_Bytes (x : Z) : bytes :=
  be_bytes (Z.to_nat ((BitLen x + 7) / 8)) (Z.abs x).

(** [binary.BigEndian.Uint16(b)] and [binary.BigEndian.PutUint16] on a fresh
    two-byte slice.  The first panics on fewer than two bytes. *)
Definition Uint16 (b : bytes) : Z :=
  match b with
  | b0 :: b1 :: _ => Z.of_N (Byte.to_N b0) * 256 + Z.of_N (Byte.to_N b1)
  | _ => 0
  end.

(** Go's [int] is 32 or 64 bits wide, by platform, and a product in it
    wraps around; [int64(...)] of the result keeps its value. *)
Inductive GoInt : Set := Int32 | Int64.

Class IntSize : Set := int_size : GoInt.

Definition int_bits (s : GoInt) : Z :=
  match s with Int32 => 32 | Int64 => 64 end.

Definition int_wrap `{IntSize} (x : Z) : Z :=
  (x + 2 ^ (int_bits int_size - 1)) mod 2 ^ int_bits int_size
  - 2 ^ (int_bits int_size - 1).

Module Metadata.
(** ExpiryFactor is the precision for the expiry attribute: one week. *)
Definition ExpiryFactor : Z := 60 * 60 * 24 * 7.
(** ValidityDefault is the default validity of new credentials, in weeks. *)
Definition ValidityDefault : Z := 52 / 2.
Definition metadataLength : nat := 1 + 3 + 2 + 2 + 16.

Definition metadataVersion : bytes := [x02].

(** MetadataField contains the length and offset of a field within a
    metadata attribute.  The type and its fields are unexported: the five
    values below are all there are, each inside the first [metadataLength]
    bytes, which [Bytes] always returns, so that no slice or index of the
    code below is out of range. *)
Record MetadataField : Type := mkField {
  field_length : nat;
  field_offset : nat;
}.

Definition versionField : MetadataField := mkField 1 0.
Definition signingDateField : MetadataField := mkField 3 1.
Definition validityField : MetadataField := mkField 2 4.
Definition keyCounterField : MetadataField := mkField 2 6.
Definition credentialID : MetadataField := mkField 16 8.

(** Bytes returns this metadata attribute as a byte slice: the bytes of the
    integer, zero bytes appended up to [metadataLength]. *)
Definition Bytes (i : Z) : bytes :=
  let bs := Int_Bytes i in
  if (length bs <? metadataLength)%nat
  then bs ++ replicate (metadataLength - length bs) x00
  else bs.

(** [attr.Bytes()[field.offset : field.offset+field.length]], for a field
    inside the bytes as the five above are. *)
Definition field (f : MetadataField) (i : Z) : bytes :=
  slice (field_offset f) (field_length f) (Bytes i).

(** The loop of [setField]: the value is pushed to the right within the
    field, zero bytes before it. *)
Definition write_field (f : MetadataField) (value bs0 : bytes) : bytes :=
  let startindex := (field_length f - length value)%nat in
  foldl (fun bs k =>
           <[(k + field_offset f)%nat :=
               if (k <? startindex)%nat then x00
               else default x00 (value !! (k - startindex)%nat)]> bs)
        bs0 (seq 0 (field_length f)).

(** [setField] panics on a value longer than the field, and at the first
    index past the end of the bytes when the field reaches beyond them. *)
Definition setField (f : MetadataField) (value : bytes) (i : Z) : result Z :=
  if (field_length f <? length value)%nat
  then Err (ErrOther "Specified metadata field too large")
  else
    let bs := Bytes i in
    if (0 <? field_length f)%nat && (length bs <? field_offset f + field_length f)%nat
    then Err (ErrOther "index out of range")
    else Ok (SetBytes (write_field f value bs)).

(** [uint16(x)] in big-endian. *)
Definition shortToByte (x : Z) : bytes :=
  let u := x mod 65536 in
  [byte_of_Z (u / 256); byte_of_Z (u mod 256)].

(** Version returns the metadata version of this instance. *)
Definition Version (i : Z) : byte := default x00 (head (field versionField i)).

(** SigningDate returns the time at which this instance was signed, in Unix
    seconds; the signing date field is one byte too long. *)
Definition SigningDate (i : Z) : Z :=
  Uint16 (drop 1 (field signingDateField i)) * ExpiryFactor.

(** [time.Now().Unix()/ExpiryFactor], an [int64] division, which truncates. *)
Definition setSigningDate (i : Z) : M Z :=
  let* t := time_Now in
  lift (setField signingDateField (shortToByte (Z.quot (Unix t) ExpiryFactor)) i).

(** KeyCounter return the public key counter of the metadata attribute. *)
Definition KeyCounter (i : Z) : Z := Uint16 (field keyCounterField i).

Definition setKeyCounter (k : Z) (i : Z) : result Z :=
  setField keyCounterField (shortToByte k) i.

(** ValidityDuration returns the amount of epochs during which this
    instance is valid. *)
Definition ValidityDuration (i : Z) : Z := Uint16 (field validityField i).

Definition setValidityDuration (weeks : Z) (i : Z) : result Z :=
  setField validityField (shortToByte weeks) i.

(** Expiry returns the expiry date of this instance, in Unix seconds:
    [SigningDate().Unix() + int64(ValidityDuration()*ExpiryFactor)], the
    product taken in [int].  It is at most [65535 * ExpiryFactor], which a
    64-bit [int] holds and a 32-bit [int] does not. *)
Definition Expiry `{IntSize} (i : Z) : Z :=
  SigningDate i + int_wrap (ValidityDuration i * ExpiryFactor).

(** IsValidOn returns whether this instance is still valid at the given
    time (in nanoseconds, as the clock gives it): [Expiry().After(t)]. *)
Definition IsValidOn `{IntSize} (i : Z) (t : Z) : bool :=
  t <? Expiry i * 1000000000.

(** IsValid returns whether this instance is valid. *)
Definition IsValid `{IntSize} (i : Z) : M bool :=
  let* t := time_Now in
  ret (IsValidOn i t).

(** NewMetadataAttribute constructs a new instance containing the default
    values: 0x02 as versionField, now as signing date, 0 as keycounter,
    ValidityDefault (half a year) as default validity. *)
Definition NewMetadataAttribute : M Z :=
  let val := 0 in
  let* val := lift (setField versionField metadataVersion val) in
  let* val := setSigningDate val in
  let* val := lift (setKeyCounter 0 val) in
  lift (setValidityDuration ValidityDefault val).

(** AttributeList contains attributes, excluding the secret key.  Its
    metadata attribute wraps [Ints[0]] itself (the same [big.Int]), so it is
    read off [Ints]; [strings] is [None] for Go's [nil]. *)
Record AttributeList : Type := mkAttributeList {
  Ints : list Z;
  strings : option (list string);
}.

(** NewAttributeListFromInts initializes a new AttributeList from a list of
    bigints; [ints[0]] panics on an empty list. *)
Definition NewAttributeListFromInts (ints : list Z) : result AttributeList :=
  match ints with
  | [] => Err (ErrOther "index out of range")
  | _ :: _ => Ok (mkAttributeList ints None)
  end.

Definition metadata (al : AttributeList) : option Z := head (Ints al).

(** Strings converts the current instance to human-readable strings, once:
    the result is kept in [strings].  On an empty [Ints] the length of the
    slice to make is negative, a panic. *)
Definition Strings (al : AttributeList) : result (list string * AttributeList) :=
  match strings al with
  | Some ss => Ok (ss, al)
  | None =>
      match Ints al with
      | [] => Err (ErrOther "makeslice: len out of range")
      | _ :: rest =>
          let ss := map (fun num => string_of_list_byte (Int_Bytes num)) rest in
          Ok (ss, mkAttributeList (Ints al) (Some ss))
      end
  end.

(** The bytes of an attribute integer without its leading zero bytes. *)
Fixpoint drop_zeros (bs : bytes) : bytes :=
  match bs with
  | b :: rest => if Byte.eqb b x00 then drop_zeros rest else bs
  | [] => []
  end.

(** An attribute integer of at least [metadataLength] bytes: then [Bytes]
    appends nothing and starts with a non-zero byte. *)
Definition full (i : Z) : Prop := 256 ^ 23 <= Z.abs i.

(** A field inside the first [metadataLength] bytes. *)
Definition fits (f : MetadataField) : Prop :=
  (field_offset f + field_length f <= metadataLength)%nat.

(** Two fields that share no byte. *)
Definition apart (f g : MetadataField) : Prop :=
  (field_offset g + field_length g <= field_offset f)%nat
  \/ (field_offset f + field_length f <= field_offset g)%nat.
End Metadata.

(** ** More runs of the idealised engine and a sample attribute *)

Module Sample.
Import Ideal.

(** The commitments of the session ([commitID1] is their commit id). *)
Definition commitments1 : list Z :=
  Eval vm_compute in
    fst (or_default ([], 0%N)
           (fst (@GenerateCommitments opaque library core ep1 token1 [keyID1] world2))).

(** The secret kept for them and the entropy left after they were made,
    before the commit id was drawn. *)
Definition commitSecret1 : Z :=
  Eval vm_compute in default 0 (commitmentData world3 !! commitID1).

Definition entropy_commit1 : bytes :=
  Eval vm_compute in
    snd (draw_commitments (Packet.keyshareSecret 4 packet1) [11] (entropy world2)).

(** A key identifier the engine does not trust. *)
Definition keyID2 : string * Z := ("irma-demo.MijnOverheid", 3).

(** A packet built for PIN "1234" around the secret 5. *)
Definition ep3 : bytes :=
  Eval vm_compute in
    or_default []
      (fst (@DangerousBuildKeyshareSecret opaque library core "1234" 5 world0)).

Definition world5 : World :=
  Eval vm_compute in
    snd (@DangerousBuildKeyshareSecret opaque library core "1234" 5 world0).

(** One second after [token1] has expired. *)
Definition world_late : World := mkWorld ∅ [] (steady 1700000181) 0.

(** A PIN of 65 bytes. *)
Definition long_pin : string := string_of_list_byte (replicate 65 "a"%byte).

(** A second commitment, made after the one of the session. *)
Definition commitments2 : list Z :=
  Eval vm_compute in
    fst (or_default ([], 0%N)
           (fst (@GenerateCommitments opaque library core ep1 token1 [keyID1] world3))).

Definition commitID2 : N :=
  Eval vm_compute in
    snd (or_default ([], 0%N)
           (fst (@GenerateCommitments opaque library core ep1 token1 [keyID1] world3))).

Definition world6 : World :=
  Eval vm_compute in
    snd (@GenerateCommitments opaque library core ep1 token1 [keyID1] world3).

(** The attribute made at second 1700000000, in week 2810. *)
Definition attribute1 : Z :=
  Eval vm_compute in or_default 0 (fst (Metadata.NewMetadataAttribute world0)).

(** The same attribute with a validity of 3551 weeks, and a platform whose
    [int] has 32 bits. *)
Definition attribute2 : Z :=
  Eval vm_compute in or_default 0 (Metadata.setValidityDuration 3551 attribute1).

Definition platform32 : IntSize := Int32.
End Sample.

(** * Properties *)

(** ** Byte slices *)

Lemma copy_length dst src : length (copy dst src) = length dst.
Proof. unfold copy. rewrite length_app, length_take, length_drop. lia. Qed.

Lemma copy_prefix dst src :
  (length src <= length dst)%nat -> copy dst src = src ++ drop (length src) dst.
Proof. intros H. unfold copy. by rewrite take_ge. Qed.

Lemma copy_full dst src : length src = length dst -> copy dst src = src.
Proof.
  intros H. rewrite copy_prefix by lia.
  rewrite drop_ge by lia. apply app_nil_r.
Qed.

(** ** Constant-time comparison decides equality *)

Lemma ConstantTimeByteEq_zero v :
  (v < 256)%N -> ConstantTimeByteEq v 0 = (if (v =? 0)%N then 1 else 0)%N.
Proof.
  intros Hv. unfold ConstantTimeByteEq. rewrite N.lxor_0_r.
  destruct (N.eqb_spec v 0%N) as [->|Hne].
  - reflexivity.
  - rewrite N.shiftr_div_pow2.
    replace ((v + (2 ^ 32 - 1)) mod 2 ^ 32)%N with (v - 1)%N.
    + apply N.div_small. change (2 ^ 31)%N with 2147483648%N. lia.
    + apply (N.mod_unique _ _ 1%N); change (2 ^ 32)%N with 4294967296%N; lia.
Qed.

Lemma xor_fold_bound v x y : (v < 256)%N -> (xor_fold v x y < 256)%N.
Proof.
  revert v y. induction x as [|a x IH]; intros v [|b y] Hv; simpl; try done.
  apply IH.
  assert (Ha := Byte.to_N_bounded a). assert (Hb := Byte.to_N_bounded b).
  change 256%N with (2 ^ 8)%N in *.
  destruct (N.eq_dec (N.lor v (N.lxor (to_N a) (to_N b))) 0%N) as [->|Hne]; [done|].
  apply N.log2_lt_pow2; [lia|].
  rewrite N.log2_lor.
  assert (N.log2 (N.lxor (to_N a) (to_N b)) < 8)%N.
  { eapply N.le_lt_trans; [apply N.log2_lxor|].
    apply N.max_lub_lt.
    - destruct (N.eq_dec (to_N a) 0%N) as [->|?]; [done|]. apply N.log2_lt_pow2; lia.
    - destruct (N.eq_dec (to_N b) 0%N) as [->|?]; [done|]. apply N.log2_lt_pow2; lia. }
  assert (N.log2 v < 8)%N.
  { destruct (N.eq_dec v 0%N) as [->|?]; [done|]. apply N.log2_lt_pow2; lia. }
  lia.
Qed.

Lemma to_N_inj a b : Byte.to_N a = Byte.to_N b -> a = b.
Proof.
  intros H. assert (Some a = Some b) as [= ->]; [|done].
  by rewrite <- (Byte.of_to_N a), <- (Byte.of_to_N b), H.
Qed.

Lemma xor_fold_zero v x y :
  length x = length y ->
  xor_fold v x y = 0%N <-> v = 0%N /\ x = y.
Proof.
  revert v y. induction x as [|a x IH]; intros v [|b y] Hlen; simpl in *; try done.
  - split; [intros ->; done | by intros [-> _]].
  - rewrite IH by congruence. rewrite N.lor_eq_0_iff, N.lxor_eq_0_iff.
    split.
    + intros [[-> Hab] ->]. by rewrite (to_N_inj _ _ Hab).
    + intros [-> [= -> ->]]. done.
Qed.

Lemma hmac_Equal_spec x y : hmac_Equal x y = true <-> x = y.
Proof.
  unfold hmac_Equal, ConstantTimeCompare.
  destruct (Nat.eqb_spec (length x) (length y)) as [Hlen|Hlen]; cbn [negb].
  - rewrite ConstantTimeByteEq_zero by (by apply xor_fold_bound).
    destruct (N.eqb_spec (xor_fold 0 x y) 0%N) as [H0|H0].
    + apply xor_fold_zero in H0 as [_ ->]; done.
    + split; [done|]. intros ->. destruct H0. by apply xor_fold_zero.
  - split; [done|]. intros ->. done.
Qed.

Lemma hmac_Equal_refl x : hmac_Equal x x = true.
Proof. by apply hmac_Equal_spec. Qed.

Lemma hmac_Equal_neq x y : x <> y -> hmac_Equal x y = false.
Proof.
  intros H. destruct (hmac_Equal x y) eqn:E; [|done].
  by apply hmac_Equal_spec in E.
Qed.

(** ** Running a computation step by step *)

Lemma bind_run {A B} (m : M A) (k : A -> M B) w a w1 :
  m w = (Ok a, w1) -> bind m k w = k a w1.
Proof. intros E. unfold bind. by rewrite E. Qed.

Lemma bind_stop {A B} (m : M A) (k : A -> M B) w e w1 :
  m w = (Err e, w1) -> bind m k w = (Err e, w1).
Proof. intros E. unfold bind. by rewrite E. Qed.

Lemma bind_Ok_inv {A B} (m : M A) (k : A -> M B) w b w' :
  bind m k w = (Ok b, w') ->
  exists a w1, m w = (Ok a, w1) /\ k a w1 = (Ok b, w').
Proof.
  unfold bind. destruct (m w) as [[a|e] w1]; [eauto|done].
Qed.

Lemma bind_lift {A B} (r : result A) (k : A -> M B) w :
  bind (lift r) k w = match r with Ok a => k a w | Err e => (Err e, w) end.
Proof. unfold bind, lift. by destruct r. Qed.

Lemma or_else_Err {A} (e : error) (m : M A) w e' w' :
  or_else e m w = (Err e', w') -> e' = e.
Proof.
  unfold or_else. destruct (m w) as [[a|e0] w1]; [done|]. by intros [= <- _].
Qed.

Lemma rand_Read_Ok n w bs w' :
  rand_Read n w = (Ok bs, w') ->
  bs = take n (entropy w) /\ length bs = n
  /\ w' = set_entropy (drop n (entropy w)) w.
Proof.
  unfold rand_Read. destruct (Nat.leb_spec n (length (entropy w))); [|done].
  intros [= <- <-]. by rewrite length_take_le.
Qed.

(** ** Steps that leave the commitment store alone *)

Lemma keeps_ret {A} (a : A) : keeps_store (ret a).
Proof. done. Qed.

Lemma keeps_fail {A} (e : error) : keeps_store (@fail A e).
Proof. done. Qed.

Lemma keeps_lift {A} (r : result A) : keeps_store (lift r).
Proof. done. Qed.

Lemma keeps_bind {A B} (m : M A) (k : A -> M B) :
  keeps_store m -> (forall a, keeps_store (k a)) -> keeps_store (bind m k).
Proof.
  intros Hm Hk w. unfold bind. specialize (Hm w).
  destruct (m w) as [[a|e] w1]; simpl in *; [|done].
  by rewrite Hk.
Qed.

Lemma keeps_or_else {A} (e : error) (m : M A) :
  keeps_store m -> keeps_store (or_else e m).
Proof.
  intros Hm w. unfold or_else. specialize (Hm w).
  by destruct (m w) as [[a|e0] w1].
Qed.

Lemma keeps_time_Now : keeps_store time_Now.
Proof. done. Qed.

Lemma keeps_rand_Read n : keeps_store (rand_Read n).
Proof. intros w. unfold rand_Read. by case_match. Qed.

Lemma keeps_drawing {A} (f : bytes -> result A * bytes) : keeps_store (drawing f).
Proof. intros w. unfold drawing. by destruct (f (entropy w)). Qed.

Lemma keeps_if {A} (b : bool) (m1 m2 : M A) :
  keeps_store m1 -> keeps_store m2 -> keeps_store (if b then m1 else m2).
Proof. by destruct b. Qed.

Lemma keeps_Valid m : keeps_store (Valid m).
Proof. apply keeps_bind; [apply keeps_time_Now|]. intros; apply keeps_ret. Qed.

Create HintDb frame.
#[global] Hint Resolve keeps_ret keeps_fail keeps_lift keeps_or_else keeps_time_Now
  keeps_rand_Read keeps_drawing keeps_Valid : frame.
#[global] Hint Extern 2 (keeps_store (bind _ _)) =>
  apply keeps_bind; [|intros ?] : frame.
#[global] Hint Extern 2 (keeps_store (if _ then _ else _)) => apply keeps_if : frame.
#[global] Hint Extern 3 (keeps_store (match ?x with _ => _ end)) => destruct x : frame.

(** ** PIN padding *)

Lemma padPin_short s :
  (length (list_byte_of_string s) <= 64)%nat ->
  padPin s
  = Ok (list_byte_of_string s ++ replicate (64 - length (list_byte_of_string s)) x00).
Proof.
  intros Hlen. unfold padPin.
  destruct (Nat.ltb_spec 64 (length (list_byte_of_string s))) as [?|_]; [lia|].
  rewrite copy_prefix by (rewrite length_replicate; lia).
  by rewrite drop_replicate.
Qed.

Lemma padPin_long s :
  (64 < length (list_byte_of_string s))%nat -> padPin s = Err ErrPinTooLong.
Proof.
  intros Hlen. unfold padPin.
  destruct (Nat.ltb_spec 64 (length (list_byte_of_string s))) as [_|?]; [done|lia].
Qed.

Lemma padPin_Ok_inv s res :
  padPin s = Ok res ->
  (length (list_byte_of_string s) <= 64)%nat
  /\ res = list_byte_of_string s ++ replicate (64 - length (list_byte_of_string s)) x00.
Proof.
  intros E.
  destruct (Nat.le_gt_cases (length (list_byte_of_string s)) 64) as [Hle|Hgt].
  - rewrite padPin_short in E by done. by injection E as <-.
  - rewrite padPin_long in E by done. done.
Qed.

Lemma padPin_length s res : padPin s = Ok res -> length res = 64%nat.
Proof.
  intros (Hle & ->)%padPin_Ok_inv. rewrite length_app, length_replicate. lia.
Qed.

Lemma pad_longer a b :
  (length a <= length b)%nat -> (length b <= 64)%nat ->
  a ++ replicate (64 - length a) x00 = b ++ replicate (64 - length b) x00 ->
  b = a ++ replicate (length b - length a) x00.
Proof.
  intros Hab Hb E.
  apply (f_equal (take (length b))) in E.
  rewrite take_app_length in E. rewrite <- E at 1.
  rewrite take_app_ge by done. rewrite take_replicate. do 2 f_equal. lia.
Qed.

Lemma pad_zeros a k :
  (length a + k <= 64)%nat ->
  (a ++ replicate k x00) ++ replicate (64 - length (a ++ replicate k x00)) x00
  = a ++ replicate (64 - length a) x00.
Proof.
  intros Hk. rewrite length_app, length_replicate, <- app_assoc, <- replicate_add.
  do 2 f_equal. lia.
Qed.

(** Two PINs of at most 64 bytes have the same padding exactly when they
    differ at most by trailing zero bytes. *)
Lemma padPin_same s s' :
  (length (list_byte_of_string s) <= 64)%nat ->
  (length (list_byte_of_string s') <= 64)%nat ->
  padPin s' = padPin s
  <-> same_but_trailing_zeros (list_byte_of_string s') (list_byte_of_string s).
Proof.
  intros Hs Hs'. rewrite !padPin_short by done.
  set (a := list_byte_of_string s) in *. set (b := list_byte_of_string s') in *.
  split.
  - intros [= E].
    destruct (Nat.le_ge_cases (length a) (length b)) as [Hle|Hge].
    + exists (length b - length a)%nat. left. by apply pad_longer.
    + exists (length a - length b)%nat. right. by apply pad_longer.
  - intros [k [E|E]]; f_equal.
    + assert (length a + k <= 64)%nat
        by (rewrite E, length_app, length_replicate in Hs'; lia).
      rewrite E. by apply pad_zeros.
    + assert (length b + k <= 64)%nat
        by (rewrite E, length_app, length_replicate in Hs; lia).
      rewrite E. symmetry. by apply pad_zeros.
Qed.

(** C8.  For a string of at most 64 bytes [padPin] succeeds with exactly 64
    bytes, the bytes of the string followed by zero bytes; for a longer
    string it fails with [ErrPinTooLong]. *)
Theorem padPin_spec (s : string) :
  ((length (list_byte_of_string s) <= 64)%nat ->
     exists res,
       padPin s = Ok res
       /\ length res = 64%nat
       /\ take (length (list_byte_of_string s)) res = list_byte_of_string s
       /\ drop (length (list_byte_of_string s)) res
          = replicate (64 - length (list_byte_of_string s)) x00)
  /\ ((64 < length (list_byte_of_string s))%nat -> padPin s = Err ErrPinTooLong).
Proof.
  split; [intros Hlen | apply padPin_long].
  eexists. split; [by apply padPin_short|]. repeat split.
  - rewrite length_app, length_replicate. lia.
  - by rewrite take_app_length.
  - by rewrite drop_app_length.
Qed.

(** The padding of the four-byte PIN "1234". *)
Lemma padPin_spec_witness :
  padPin "1234" = Ok (list_byte_of_string "1234" ++ replicate 60 x00).
Proof.
  destruct (padPin_spec "1234") as [H _].
  destruct H as (res & -> & Hlen & Htake & Hdrop); [simpl; lia|].
  f_equal. rewrite <- (take_drop 4 res). simpl in Htake, Hdrop.
  by rewrite Htake, Hdrop.
Defined.

(** ** The commitment store *)

Section Store.
Context `{Library}.

Lemma keeps_encryptPacket c p : keeps_store (encryptPacket c p).
Proof. apply keeps_drawing. Qed.

Lemma keeps_decryptPacket c ep : keeps_store (decryptPacket c ep).
Proof. apply keeps_lift. Qed.

Lemma keeps_jwt_Parse s keyFunc : keeps_store (jwt_Parse s keyFunc).
Proof. unfold jwt_Parse. auto 10 with frame. Qed.

#[local] Hint Resolve keeps_encryptPacket keeps_decryptPacket keeps_jwt_Parse : frame.

Lemma keeps_verifyAccess c ep s : keeps_store (verifyAccess c ep s).
Proof. unfold verifyAccess. auto 20 with frame. Qed.

Lemma keeps_GenerateKeyshareSecret c pin : keeps_store (GenerateKeyshareSecret c pin).
Proof. unfold GenerateKeyshareSecret. auto 10 with frame. Qed.

Lemma keeps_DangerousBuildKeyshareSecret c pin secret :
  keeps_store (DangerousBuildKeyshareSecret c pin secret).
Proof. unfold DangerousBuildKeyshareSecret. auto 10 with frame. Qed.

Lemma keeps_ValidatePin c ep pin userID : keeps_store (ValidatePin c ep pin userID).
Proof. unfold ValidatePin. auto 10 with frame. Qed.

Lemma keeps_ValidateJWT c ep s : keeps_store (ValidateJWT c ep s).
Proof. unfold ValidateJWT. auto using keeps_verifyAccess with frame. Qed.

Lemma keeps_ChangePin c ep old new : keeps_store (ChangePin c ep old new).
Proof. unfold ChangePin. auto 10 with frame. Qed.

(** [GenerateResponse] up to its access check, then the rest. *)
Lemma GenerateResponse_rejected c ep tok commitID challenge keyID w :
  challenge_ok challenge = false ->
  GenerateResponse c ep tok commitID challenge keyID w = (Err ErrInvalidChallenge, w).
Proof.
  unfold challenge_ok, GenerateResponse. intros E%negb_false_iff. by rewrite E.
Qed.

Lemma GenerateResponse_fetch c ep tok commitID challenge keyID w key p w1 :
  challenge_ok challenge = true ->
  trustedKeys c !! keyID = Some key ->
  verifyAccess c ep tok w = (Ok p, w1) ->
  GenerateResponse c ep tok commitID challenge keyID w
  = match commitmentData w1 !! commitID with
    | None => (Err ErrUnknownCommit,
               set_commitmentData (delete commitID (commitmentData w1)) w1)
    | Some commit =>
        (SignedString
           (newResponseToken c
              (KeyshareResponse (Packet.keyshareSecret secretLen p) commit challenge key)
              (clock w1 (ticks w1)))
           (signKey c),
         tick (set_commitmentData (delete commitID (commitmentData w1)) w1))
    end.
Proof.
  unfold challenge_ok, GenerateResponse. intros E%negb_true_iff Hkey Hacc.
  rewrite E, Hkey. rewrite (bind_run _ _ _ _ _ Hacc).
  unfold bind, fetch_commit. by destruct (commitmentData w1 !! commitID).
Qed.

Lemma GenerateResponse_store c ep tok commitID challenge keyID w :
  (checks_pass c ep tok challenge keyID w ->
     commitmentData (snd (GenerateResponse c ep tok commitID challenge keyID w))
     = delete commitID (commitmentData w))
  /\ (~ checks_pass c ep tok challenge keyID w ->
     commitmentData (snd (GenerateResponse c ep tok commitID challenge keyID w))
     = commitmentData w).
Proof.
  split.
  - intros (Hch & [key Hkey] & Hacc).
    destruct (verifyAccess c ep tok w) as [[p|e] w1] eqn:Hacc'; [clear Hacc|done].
    rename Hacc' into Hacc.
    rewrite (GenerateResponse_fetch _ _ _ _ _ _ _ _ _ _ Hch Hkey Hacc).
    pose proof (keeps_verifyAccess c ep tok w) as Hw. rewrite Hacc in Hw. simpl in Hw.
    destruct (commitmentData w1 !! commitID); simpl; by rewrite Hw.
  - intros Hno. destruct (challenge_ok challenge) eqn:Hch.
    + unfold GenerateResponse. unfold challenge_ok in Hch.
      apply negb_true_iff in Hch as Hch'. rewrite Hch'.
      destruct (trustedKeys c !! keyID) as [key|] eqn:Hkey; [|done].
      destruct (verifyAccess c ep tok w) as [[p|e] w1] eqn:Hacc.
      * destruct Hno. unfold checks_pass, challenge_ok. rewrite Hch, Hkey, Hacc. eauto.
      * rewrite (bind_stop _ _ _ _ _ Hacc).
        pose proof (keeps_verifyAccess c ep tok w) as Hw. by rewrite Hacc in Hw.
    + by rewrite GenerateResponse_rejected.
Qed.

Lemma GenerateCommitments_store c ep tok keyIDs w :
  match GenerateCommitments c ep tok keyIDs w with
  | (Ok (_, commitID), w') =>
      exists commitSecret e,
        (8 <= length e)%nat
        /\ commitID = le_uint (take 8 e)
        /\ entropy w' = drop 8 e
        /\ commitmentData w' = <[commitID := commitSecret]> (commitmentData w)
  | (Err _, w') => commitmentData w' = commitmentData w
  end.
Proof.
  unfold GenerateCommitments. rewrite bind_lift.
  destruct (buildKeyList c keyIDs []) as [keyList|e]; [|done].
  pose proof (keeps_verifyAccess c ep tok w) as Hw.
  unfold bind at 1. destruct (verifyAccess c ep tok w) as [[p|e] w1]; simpl in Hw; [|done].
  unfold bind at 1.
  pose proof (keeps_drawing
    (NewKeyshareCommitments (Packet.keyshareSecret secretLen p) keyList) w1) as Hw1.
  destruct (drawing _ w1) as [[[commitSecret commitments]|e] w2]; simpl in Hw1;
    [|congruence].
  unfold bind at 1.
  pose proof (keeps_rand_Read 8 w2) as Hw2.
  destruct (rand_Read 8 w2) as [[raw|e] w3] eqn:Hrand; simpl in Hw2; [|congruence].
  apply rand_Read_Ok in Hrand as (-> & Hlen & ->).
  unfold bind, store_commit, ret. simpl. exists commitSecret, (entropy w2).
  rewrite length_take in Hlen. repeat split; [lia|congruence].
Qed.

Lemma BitLen_bound x n : 0 <= x -> 0 <= n -> BitLen x <= n <-> x < 2 ^ n.
Proof.
  intros Hx Hn. unfold BitLen. destruct (Z.eqb_spec x 0) as [->|Hne].
  - split; [intros _; by apply Z.pow_pos_nonneg | done].
  - rewrite Z.abs_eq by done.
    destruct (Z.eq_dec n 0) as [->|Hn0].
    + pose proof (Z.log2_nonneg x). change (2 ^ 0) with 1. lia.
    + rewrite (Z.log2_lt_pow2 x n) by lia. lia.
Qed.

Lemma challenge_ok_range challenge :
  challenge_ok challenge = true <-> 0 <= challenge < 2 ^ 256.
Proof.
  unfold challenge_ok. rewrite negb_true_iff, orb_false_iff, Z.ltb_ge, Z.ltb_ge.
  split.
  - intros [Hb Hn]. split; [done|]. by apply BitLen_bound.
  - intros [Hn Hb]. split; [|done]. by apply BitLen_bound.
Qed.

(** C5.  A challenge that is negative or longer than [Lh] bits is answered
    with [ErrInvalidChallenge] whatever the other arguments are, and the
    state is left exactly as it was: nothing is decrypted, read or consumed.
    A later call with the same commit id whose checks pass therefore finds
    the record and signs the response computed from it. *)
Theorem challenge_out_of_bounds c ep tok commitID challenge keyID w :
  challenge < 0 \/ Lh < BitLen challenge ->
  GenerateResponse c ep tok commitID challenge keyID w = (Err ErrInvalidChallenge, w)
  /\ forall ep' tok' challenge' keyID' key p w1 commit,
       challenge_ok challenge' = true ->
       trustedKeys c !! keyID' = Some key ->
       verifyAccess c ep' tok' w = (Ok p, w1) ->
       commitmentData w !! commitID = Some commit ->
       fst (GenerateResponse c ep' tok' commitID challenge' keyID'
              (snd (GenerateResponse c ep tok commitID challenge keyID w)))
       = SignedString
           (newResponseToken c
              (KeyshareResponse (Packet.keyshareSecret secretLen p) commit challenge' key)
              (clock w1 (ticks w1)))
           (signKey c).
Proof.
  intros Hbad.
  assert (challenge_ok challenge = false) as Hch.
  { unfold challenge_ok. apply negb_false_iff, orb_true_iff.
    destruct Hbad; [right|left]; by apply Z.ltb_lt. }
  rewrite (GenerateResponse_rejected _ _ _ _ _ _ _ Hch). split; [done|].
  intros ep' tok' challenge' keyID' key p w1 commit Hch' Hkey Hacc Hcommit. simpl.
  rewrite (GenerateResponse_fetch _ _ _ _ _ _ _ _ _ _ Hch' Hkey Hacc).
  pose proof (keeps_verifyAccess c ep' tok' w) as Hw. rewrite Hacc in Hw. simpl in Hw.
  by rewrite Hw, Hcommit.
Qed.

(** C1.  Once a call of [GenerateResponse] with commit id [commitID] has
    passed its checks and so fetched from the store, whatever it then
    returned, a second call with the same commit id that passes its checks
    returns [ErrUnknownCommit]. *)
Theorem commit_single_use c commitID ep tok challenge keyID w ep' tok' challenge' keyID' :
  checks_pass c ep tok challenge keyID w ->
  checks_pass c ep' tok' challenge' keyID'
    (snd (GenerateResponse c ep tok commitID challenge keyID w)) ->
  fst (GenerateResponse c ep' tok' commitID challenge' keyID'
         (snd (GenerateResponse c ep tok commitID challenge keyID w)))
  = Err ErrUnknownCommit.
Proof.
  intros Hfirst (Hch & [key Hkey] & Hacc).
  apply (proj1 (GenerateResponse_store c ep tok commitID challenge keyID w)) in Hfirst.
  set (w' := snd (GenerateResponse c ep tok commitID challenge keyID w)) in *.
  destruct (verifyAccess c ep' tok' w') as [[p|e] w1] eqn:Hacc'; [|done].
  rewrite (GenerateResponse_fetch _ _ _ _ _ _ _ _ _ _ Hch Hkey Hacc').
  pose proof (keeps_verifyAccess c ep' tok' w') as Hw. rewrite Hacc' in Hw. simpl in Hw.
  by rewrite Hw, Hfirst, lookup_delete_eq.
Qed.
End Store.

(** ** The packet codec: a field written is read back, the others stay *)

Lemma slice_length off n p :
  (off + n <= length p)%nat -> length (slice off n p) = n.
Proof. intros Hn. unfold slice. rewrite length_take, length_drop. lia. Qed.

Lemma splice_length off n data p :
  (off + n <= length p)%nat -> length (splice off n data p) = length p.
Proof.
  intros Hn. unfold splice.
  rewrite !length_app, copy_length, slice_length, length_take, length_drop by done.
  lia.
Qed.

Lemma slice_splice off n data p :
  (off + n <= length p)%nat -> length data = n ->
  slice off n (splice off n data p) = data.
Proof.
  intros Hn Hd. unfold splice, slice at 1.
  rewrite drop_app_length' by (rewrite length_take; lia).
  rewrite take_app_length' by (by rewrite copy_length, slice_length).
  apply copy_full. by rewrite slice_length.
Qed.

Lemma slice_splice_before off' n' off n data p :
  (off + n <= length p)%nat -> (off' + n' <= off)%nat ->
  slice off' n' (splice off n data p) = slice off' n' p.
Proof.
  intros Hn Hd. unfold splice, slice at 1 3.
  rewrite drop_app_le by (rewrite length_take; lia).
  rewrite take_app_le by (rewrite length_drop, length_take; lia).
  rewrite !take_drop_commute, take_take. do 2 f_equal. lia.
Qed.

Lemma slice_splice_after off' n' off n data p :
  (off + n <= length p)%nat -> (off + n <= off')%nat ->
  slice off' n' (splice off n data p) = slice off' n' p.
Proof.
  intros Hn Hd. unfold splice, slice at 1 3. rewrite app_assoc.
  assert (length (take off p ++ copy (slice off n p) data) = (off + n)%nat) as Hl.
  { rewrite length_app, copy_length, slice_length, length_take by done. lia. }
  rewrite drop_app_ge by lia. rewrite Hl, drop_drop. do 2 f_equal. lia.
Qed.

Lemma be_bytes_length n z : length (be_bytes n z) = n.
Proof.
  revert z. induction n as [|n IH]; intros z; simpl; [done|].
  rewrite length_app, IH. simpl. lia.
Qed.

Lemma to_N_byte_of_Z z : 0 <= z < 256 -> Z.of_N (Byte.to_N (byte_of_Z z)) = z.
Proof.
  intros Hz. unfold byte_of_Z.
  destruct (Byte.of_N (Z.to_N z)) as [b|] eqn:E.
  - apply Byte.to_of_N in E. simpl. rewrite E. lia.
  - apply Byte.of_N_None_iff in E. lia.
Qed.

Lemma SetBytes_snoc bs b : SetBytes (bs ++ [b]) = SetBytes bs * 256 + Z.of_N (Byte.to_N b).
Proof. unfold SetBytes. by rewrite fold_left_app. Qed.

(** Big-endian bytes of a value that fits are read back as that value. *)
Lemma SetBytes_be_bytes n z : 0 <= z < 256 ^ Z.of_nat n -> SetBytes (be_bytes n z) = z.
Proof.
  revert z. induction n as [|n IH]; intros z Hz.
  - simpl in *. change (256 ^ 0) with 1 in Hz. unfold SetBytes. simpl. lia.
  - cbn [be_bytes]. rewrite SetBytes_snoc.
    rewrite Nat2Z.inj_succ, Z.pow_succ_r in Hz by lia.
    rewrite IH by (split; [apply Z.div_pos; lia | apply Z.div_lt_upper_bound; lia]).
    rewrite to_N_byte_of_Z by (apply Z.mod_pos_bound; lia).
    pose proof (Z.div_mod z 256). lia.
Qed.

Lemma zero_length n : length (Packet.zero n) = Packet.len n.
Proof. apply length_replicate. Qed.

Lemma setPin_length n pw p :
  length p = Packet.len n -> length (Packet.setPin pw p) = Packet.len n.
Proof. intros Hp. unfold Packet.setPin. rewrite splice_length; unfold Packet.len in *; lia. Qed.

Lemma setID_length n i p :
  length p = Packet.len n -> length (Packet.setID n i p) = Packet.len n.
Proof. intros Hp. unfold Packet.setID. rewrite splice_length; unfold Packet.len in *; lia. Qed.

Lemma setKeyshareSecret_length n val p p' :
  length p = Packet.len n -> Packet.setKeyshareSecret n val p = Ok p' ->
  length p' = Packet.len n.
Proof.
  intros Hp. unfold Packet.setKeyshareSecret. case_match; [done|].
  intros [= <-]. rewrite splice_length; unfold Packet.len in *; lia.
Qed.

Lemma keyshareSecret_setKeyshareSecret n val p p' :
  length p = Packet.len n -> Packet.setKeyshareSecret n val p = Ok p' ->
  Packet.keyshareSecret n p' = val.
Proof.
  intros Hp. unfold Packet.setKeyshareSecret, Packet.keyshareSecret.
  destruct (_ || _) eqn:E; [done|]. intros [= <-].
  apply orb_false_iff in E as [Hn Hb]. apply Z.ltb_ge in Hn. apply Z.leb_gt in Hb.
  rewrite slice_splice by (unfold Packet.len in *; lia || apply be_bytes_length).
  by apply SetBytes_be_bytes.
Qed.

Lemma pin_setPin n pw p :
  length p = Packet.len n -> length pw = 64%nat -> Packet.pin (Packet.setPin pw p) = pw.
Proof.
  intros Hp Hpw. apply slice_splice; [unfold Packet.len in *; lia | done].
Qed.

Lemma pin_setID n i p :
  length p = Packet.len n -> Packet.pin (Packet.setID n i p) = Packet.pin p.
Proof.
  intros Hp. apply slice_splice_before; unfold Packet.len in *; lia.
Qed.

Lemma pin_setKeyshareSecret n val p p' :
  length p = Packet.len n -> Packet.setKeyshareSecret n val p = Ok p' ->
  Packet.pin p' = Packet.pin p.
Proof.
  intros Hp. unfold Packet.setKeyshareSecret. case_match; [done|].
  intros [= <-]. apply slice_splice_before; unfold Packet.len in *; lia.
Qed.

Lemma id_setID n i p :
  length p = Packet.len n -> length i = 32%nat -> Packet.id n (Packet.setID n i p) = i.
Proof.
  intros Hp Hi. apply slice_splice; [unfold Packet.len in *; lia | done].
Qed.

Lemma secret_bytes_setPin n pw p :
  length p = Packet.len n -> slice 64 n (Packet.setPin pw p) = slice 64 n p.
Proof.
  intros Hp. apply slice_splice_after; unfold Packet.len in *; lia.
Qed.

Lemma secret_bytes_setID n i p :
  length p = Packet.len n -> slice 64 n (Packet.setID n i p) = slice 64 n p.
Proof.
  intros Hp. apply slice_splice_before; unfold Packet.len in *; lia.
Qed.

(** A packet is its three fields, in order. *)
Lemma packet_fields n p :
  length p = Packet.len n -> p = Packet.pin p ++ slice 64 n p ++ Packet.id n p.
Proof.
  intros Hp. unfold Packet.pin, Packet.id, slice. rewrite drop_0.
  rewrite <- (take_drop 64 p) at 1. f_equal.
  rewrite <- (take_drop n (drop 64 p)) at 1. f_equal.
  rewrite drop_drop. symmetry. apply take_ge.
  rewrite length_drop. unfold Packet.len in Hp. lia.
Qed.

(** ** The idealised libraries satisfy what is assumed *)

Lemma ideal_cipher_round_trip : @cipher_round_trip Ideal.opaque Ideal.library.
Proof.
  intros k p e ep e' Hp. simpl in *. unfold Ideal.seal.
  destruct (Nat.leb_spec 12 (length e)) as [Hle|]; [|done].
  intros [= <- <-]. unfold Ideal.open.
  rewrite (Byte.byte_dec_lb (eq_refl k)). simpl andb.
  rewrite length_app, length_take_le, Hp by done.
  rewrite Nat.eqb_refl. by rewrite drop_app_length' by (by rewrite length_take_le).
Qed.

Lemma ideal_packets_sized : @packets_sized Ideal.opaque Ideal.library.
Proof.
  intros k [|v rest] p; simpl; [done|].
  destruct (_ && _) eqn:E; [|done].
  apply andb_true_iff in E as [_ Hl%Nat.eqb_eq].
  intros [= <-]. rewrite length_drop, Hl. lia.
Qed.

Lemma ideal_base64_round_trip : @base64_round_trip Ideal.opaque Ideal.library.
Proof. intros b. simpl. by rewrite list_byte_of_string_of_list_byte. Qed.

Lemma ideal_jws_round_trip : @jws_round_trip Ideal.opaque Ideal.library.
Proof. intros t k s. simpl. unfold Ideal.sign. by intros [= <-]. Qed.

Lemma ideal_signs k : @signs Ideal.opaque Ideal.library k.
Proof. intros t _. simpl. unfold Ideal.sign. eauto. Qed.

(** ** PIN check and PIN change *)

Lemma Unix_Add_minutes t : Unix (Add t (3 * Minute)) = Unix t + 180.
Proof.
  unfold Unix, Add, Minute.
  replace (t + 3 * (60 * 1000000000)) with (t + 180 * 1000000000) by lia.
  by rewrite Z.div_add.
Qed.

Section Lifecycle.
Context `{Library}.

Lemma ValidatePin_run c ep pin userID w paddedPin p :
  padPin pin = Ok paddedPin ->
  aead_Open (cipherKeys c) ep = Ok p ->
  ValidatePin c ep pin userID w
  = if hmac_Equal (Packet.pin p) paddedPin
    then (SignedString
            (newAccessToken c userID (Packet.id secretLen p)
               (clock w (ticks w)) (clock w (S (ticks w))))
            (signKey c),
          tick (tick w))
    else (Err ErrInvalidPin, w).
Proof.
  intros Hpad Hopen. unfold ValidatePin, decryptPacket.
  rewrite bind_lift, Hpad, bind_lift, Hopen.
  by destruct (hmac_Equal (Packet.pin p) paddedPin).
Qed.

Lemma ValidatePin_Ok_inv c ep pin userID w tok w' :
  ValidatePin c ep pin userID w = (Ok tok, w') ->
  exists paddedPin p,
    padPin pin = Ok paddedPin
    /\ aead_Open (cipherKeys c) ep = Ok p
    /\ Packet.pin p = paddedPin
    /\ SignedString
         (newAccessToken c userID (Packet.id secretLen p)
            (clock w (ticks w)) (clock w (S (ticks w))))
         (signKey c) = Ok tok
    /\ w' = tick (tick w).
Proof.
  intros E.
  destruct (padPin pin) as [paddedPin|e] eqn:Hpad.
  2:{ unfold ValidatePin in E. by rewrite bind_lift, Hpad in E. }
  destruct (aead_Open (cipherKeys c) ep) as [p|e] eqn:Hopen.
  2:{ unfold ValidatePin, decryptPacket in E.
      by rewrite bind_lift, Hpad, bind_lift, Hopen in E. }
  rewrite (ValidatePin_run _ _ _ _ _ _ _ Hpad Hopen) in E.
  destruct (hmac_Equal (Packet.pin p) paddedPin) eqn:Heq; [|done].
  apply hmac_Equal_spec in Heq. injection E as E <-. eauto 10.
Qed.

Lemma ChangePin_Ok_inv c ep old new w ep2 w2 :
  ChangePin c ep old new w = (Ok ep2, w2) ->
  exists oldpin newpin p e',
    padPin old = Ok oldpin
    /\ padPin new = Ok newpin
    /\ aead_Open (cipherKeys c) ep = Ok p
    /\ Packet.pin p = oldpin
    /\ (32 <= length (entropy w))%nat
    /\ aead_Seal (cipherKeys c)
         (Packet.setID secretLen (take 32 (entropy w)) (Packet.setPin newpin p))
         (drop 32 (entropy w)) = (Ok ep2, e').
Proof.
  unfold ChangePin, decryptPacket, encryptPacket. rewrite bind_lift.
  destruct (padPin old) as [oldpin|e] eqn:Hold; [|done]. rewrite bind_lift.
  destruct (padPin new) as [newpin|e] eqn:Hnew; [|done]. rewrite bind_lift.
  destruct (aead_Open (cipherKeys c) ep) as [p|e] eqn:Hopen; [|done].
  destruct (hmac_Equal (Packet.pin p) oldpin) eqn:Heq; [|done].
  apply hmac_Equal_spec in Heq. simpl negb. cbv iota.
  intros (id & w1 & Hrand & Hseal)%bind_Ok_inv.
  apply rand_Read_Ok in Hrand as (-> & Hlen & ->).
  unfold drawing in Hseal. simpl in Hseal.
  destruct (aead_Seal _ _ _) as [r e'] eqn:Hs. injection Hseal as -> _.
  exists oldpin, newpin, p, e'. repeat split; try done.
  rewrite length_take in Hlen. lia.
Qed.

Lemma GenerateKeyshareSecret_packet c pinRaw w ep w1 :
  cipher_round_trip ->
  GenerateKeyshareSecret c pinRaw w = (Ok ep, w1) ->
  exists pin p,
    padPin pinRaw = Ok pin
    /\ aead_Open (cipherKeys c) ep = Ok p
    /\ length p = Packet.len secretLen
    /\ Packet.pin p = pin.
Proof.
  intros Hrt. unfold GenerateKeyshareSecret, encryptPacket. rewrite bind_lift.
  destruct (padPin pinRaw) as [pin|e] eqn:Hpad; [|done].
  intros (secret & wa & _ & E)%bind_Ok_inv.
  apply bind_Ok_inv in E as (id & wb & Hrand & E).
  apply rand_Read_Ok in Hrand as (Hid & Hlen & ->).
  rewrite bind_lift in E.
  destruct (Packet.setKeyshareSecret _ _ _) as [p|e] eqn:Hset; [|done].
  unfold drawing in E. simpl in E.
  destruct (aead_Seal _ _ _) as [r e'] eqn:Hs. injection E as -> _.
  assert (length (Packet.setPin pin (Packet.zero secretLen)) = Packet.len secretLen)
    as Hl1 by apply setPin_length, zero_length.
  pose proof (setKeyshareSecret_length _ _ _ _ Hl1 Hset) as Hl2.
  exists pin, (Packet.setID secretLen id p). repeat split; try done.
  - eapply Hrt; [|done]. by apply setID_length.
  - by apply setID_length.
  - rewrite pin_setID by done.
    rewrite (pin_setKeyshareSecret _ _ _ _ Hl1 Hset).
    apply (pin_setPin secretLen); [apply zero_length | by eapply padPin_length].
Qed.

(** C6.  When [ChangePin] returns a packet for a packet [ep] that decrypts
    to [p], the PIN field of [p] is the padded old PIN, and the new packet
    decrypts to [p] with the PIN field replaced by the padded new PIN and the
    id field by the 32 bytes just drawn: the secret bytes in between, and so
    the keyshare secret, are those of [p]. *)
Theorem ChangePin_preserves_secret c ep old new w ep2 w2 p :
  cipher_round_trip -> packets_sized ->
  aead_Open (cipherKeys c) ep = Ok p ->
  ChangePin c ep old new w = (Ok ep2, w2) ->
  exists p2 newpin,
    aead_Open (cipherKeys c) ep2 = Ok p2
    /\ Packet.keyshareSecret secretLen p2 = Packet.keyshareSecret secretLen p
    /\ padPin new = Ok newpin
    /\ padPin old = Ok (Packet.pin p)
    /\ p2 = newpin ++ slice 64 secretLen p ++ take 32 (entropy w).
Proof.
  intros Hrt Hsz Hopen (oldpin & newpin & p' & e' & Hold & Hnew & Hopen' & Hpin & He & Hseal)%ChangePin_Ok_inv.
  rewrite Hopen in Hopen'. injection Hopen' as <-.
  pose proof (Hsz _ _ _ Hopen) as Hlen.
  pose proof (padPin_length _ _ Hnew) as Hnl.
  set (id := take 32 (entropy w)) in *.
  assert (length id = 32%nat) as Hid by (by apply length_take_le).
  set (p2 := Packet.setID secretLen id (Packet.setPin newpin p)) in *.
  assert (length (Packet.setPin newpin p) = Packet.len secretLen) as Hl1
    by (by apply setPin_length).
  assert (length p2 = Packet.len secretLen) as Hl2 by (by apply setID_length).
  assert (slice 64 secretLen p2 = slice 64 secretLen p) as Hsec.
  { unfold p2. rewrite secret_bytes_setID by done. by apply secret_bytes_setPin. }
  exists p2, newpin. repeat split.
  - by apply (Hrt _ _ _ _ _ Hl2 Hseal).
  - unfold Packet.keyshareSecret. by rewrite Hsec.
  - done.
  - by rewrite Hold, Hpin.
  - rewrite (packet_fields _ _ Hl2), Hsec. f_equal; [|f_equal].
    + unfold p2. rewrite pin_setID by done. by apply (pin_setPin secretLen).
    + unfold p2. by apply id_setID.
Qed.
End Lifecycle.

Section PinCheck.
Context `{Library}.

(** C3, as the code has it.  On the packet [GenerateKeyshareSecret] made for
    [pin], [ValidatePin] with [pin] signs a token; a PIN of at most 64 bytes
    that differs from [pin] at most by trailing zero bytes has the same
    padding and is treated exactly as [pin] is; and every other PIN of at
    most 64 bytes is answered with [ErrInvalidPin], the state untouched. *)
Theorem pin_authentication c pin w0 ep w1 userID w :
  cipher_round_trip -> signs (signKey c) ->
  GenerateKeyshareSecret c pin w0 = (Ok ep, w1) ->
  (length (list_byte_of_string pin) <= 64)%nat
  /\ (exists tok, ValidatePin c ep pin userID w = (Ok tok, tick (tick w)))
  /\ (forall pin', (length (list_byte_of_string pin') <= 64)%nat ->
        same_but_trailing_zeros (list_byte_of_string pin') (list_byte_of_string pin) ->
        ValidatePin c ep pin' userID w = ValidatePin c ep pin userID w)
  /\ (forall pin', (length (list_byte_of_string pin') <= 64)%nat ->
        ~ same_but_trailing_zeros (list_byte_of_string pin') (list_byte_of_string pin) ->
        ValidatePin c ep pin' userID w = (Err ErrInvalidPin, w)).
Proof.
  intros Hrt Hsign (padded & p & Hpad & Hopen & Hlen & Hpin)%GenerateKeyshareSecret_packet;
    [|done].
  pose proof (proj1 (padPin_Ok_inv _ _ Hpad)) as Hle.
  split; [done|]. repeat split.
  - rewrite (ValidatePin_run _ _ _ _ _ _ _ Hpad Hopen), Hpin, hmac_Equal_refl.
    destruct (Hsign (newAccessToken c userID (Packet.id secretLen p)
                       (clock w (ticks w)) (clock w (S (ticks w))))) as [tok ->]; [done|].
    eauto.
  - intros pin' Hle' Hsame%padPin_same; [|done..]. rewrite Hpad in Hsame.
    by rewrite (ValidatePin_run _ _ _ _ _ _ _ Hpad Hopen),
               (ValidatePin_run _ _ _ _ _ _ _ Hsame Hopen).
  - intros pin' Hle' Hdiff.
    pose proof (padPin_short _ Hle') as Hpad'.
    rewrite (ValidatePin_run _ _ _ _ _ _ _ Hpad' Hopen), Hpin.
    rewrite hmac_Equal_neq; [done|]. intros Heq. apply Hdiff.
    apply padPin_same; [done..|]. by rewrite Hpad, Hpad', Heq.
Qed.

(** C7, as the code has it.  The token [ValidatePin] returns is the RS256
    serialisation, under the signing key, of a token with [kid] in its header
    and the six claims below; [iat] is the first reading of the clock and
    [exp] is 180 seconds after the second one, hence [iat + 180] when both
    readings fall in the same second. *)
Theorem ValidatePin_token c ep pin userID w tok w' :
  packets_sized ->
  ValidatePin c ep pin userID w = (Ok tok, w') ->
  exists p token,
    aead_Open (cipherKeys c) ep = Ok p
    /\ length (Packet.id secretLen p) = 32%nat
    /\ SignedString token (signKey c) = Ok tok
    /\ Method token = SigningMethodRS256
    /\ Header token !! "alg" = Some (VStr "RS256")
    /\ Header token !! "kid" = Some (VNum (signKeyID c))
    /\ Claims token !! "iss" = Some (VStr "keyshare_server")
    /\ Claims token !! "sub" = Some (VStr "auth_tok")
    /\ Claims token !! "user_id" = Some (VStr userID)
    /\ Claims token !! "token_id"
       = Some (VStr (EncodeToString (Packet.id secretLen p)))
    /\ Claims token !! "iat" = Some (VNum (reading w 0))
    /\ Claims token !! "exp" = Some (VNum (reading w 1 + 180))
    /\ (reading w 1 = reading w 0 ->
        Claims token !! "exp" = Some (VNum (reading w 0 + 180))).
Proof.
  intros Hsz (padded & p & Hpad & Hopen & Hpin & Hsigned & ->)%ValidatePin_Ok_inv.
  exists p, (newAccessToken c userID (Packet.id secretLen p)
               (clock w (ticks w)) (clock w (S (ticks w)))).
  assert (Claims (newAccessToken c userID (Packet.id secretLen p)
             (clock w (ticks w)) (clock w (S (ticks w)))) !! "exp"
          = Some (VNum (reading w 1 + 180))) as Hexp.
  { unfold reading. rewrite Nat.add_1_r, <- Unix_Add_minutes. reflexivity. }
  split; [done|]. split.
  { apply slice_length. rewrite (Hsz _ _ _ Hopen). unfold Packet.len. lia. }
  split; [done|].
  repeat split; try done.
  - unfold reading. by rewrite Nat.add_0_r.
  - intros <-. done.
Qed.
End PinCheck.

(** ** Access verification *)

Lemma GetSigningMethod_RS256 alg :
  GetSigningMethod alg = Some SigningMethodRS256 <-> alg = "RS256".
Proof.
  split; [|by intros ->].
  unfold GetSigningMethod, signingMethods. cbn [find Alg].
  repeat match goal with
         | |- context [String.eqb ?a alg] =>
             destruct (String.eqb_spec a alg) as [<-|_]; [done|]
         end.
  done.
Qed.

Section Access.
Context `{Library}.

Lemma ParseUnverified_Ok_inv s token :
  ParseUnverified s = Ok token ->
  exists alg,
    jws_decode s = Some (Header token, Claims token)
    /\ Header token !! "alg" = Some (VStr alg)
    /\ GetSigningMethod alg = Some (Method token).
Proof.
  unfold ParseUnverified.
  destruct (jws_decode s) as [[hdr cl]|]; [|done].
  destruct (hdr !! "alg") as [[| | |alg|]|] eqn:Halg; try done.
  destruct (GetSigningMethod alg) as [m|] eqn:Hm; [|done].
  intros [= <-]. eauto.
Qed.

Lemma ParseUnverified_RS256 s hdr cl :
  jws_decode s = Some (hdr, cl) ->
  hdr !! "alg" = Some (VStr "RS256") ->
  ParseUnverified s = Ok (mkToken SigningMethodRS256 hdr cl).
Proof. intros Hd Ha. unfold ParseUnverified. by rewrite Hd, Ha. Qed.

(** [verifyAccess] is the token checks, then decryption, then the
    comparison of ids; it reads the clock three times when it gets that
    far. *)
Lemma verifyAccess_fst c ep s w :
  fst (verifyAccess c ep s w)
  = match token_checks c s w with
    | None => Err ErrInvalidJWT
    | Some tokenID =>
        match aead_Open (cipherKeys c) ep with
        | Err e => Err e
        | Ok p =>
            if hmac_Equal (Packet.id secretLen p) tokenID then Ok p
            else Err ErrInvalidJWT
        end
    end.
Proof.
  unfold verifyAccess, token_checks, jwt_Parse, or_else, decryptPacket.
  unfold bind at 1. rewrite bind_lift.
  destruct (ParseUnverified s) as [token|e]; [|done].
  rewrite bind_lift.
  destruct (bool_decide (Method token = SigningMethodRS256)); simpl; [|done].
  unfold Valid at 1, bind at 1 2, time_Now, ret. simpl.
  unfold reading at 1. rewrite Nat.add_0_r.
  destruct (valid_at (Claims token) (Unix (clock w (ticks w)))
            && Method_Verify (Method token) s (PublicKey_of (signKey c))); simpl; [|done].
  unfold Valid, bind at 1 2, time_Now, ret. simpl.
  unfold reading at 1. rewrite Nat.add_1_r.
  destruct (valid_at (Claims token) (Unix (clock w (S (ticks w))))); simpl; [|done].
  unfold bind at 1. simpl. unfold reading.
  replace (ticks w + 2)%nat with (S (S (ticks w))) by lia.
  destruct (VerifyExpiresAt (Claims token) (Unix (clock w (S (S (ticks w))))) true);
    simpl; [|done].
  destruct (Claims token !! "token_id") as [[| | |b64|]|]; try done.
  destruct (DecodeString b64) as [tokenID|]; [|done].
  rewrite bind_lift. destruct (aead_Open (cipherKeys c) ep) as [p|e]; [|done].
  by destruct (hmac_Equal (Packet.id secretLen p) tokenID).
Qed.

Lemma verifyAccess_snd_Ok c ep s w p w' :
  verifyAccess c ep s w = (Ok p, w') -> w' = tick (tick (tick w)).
Proof.
  unfold verifyAccess, jwt_Parse, or_else, decryptPacket.
  unfold bind at 1. rewrite bind_lift.
  destruct (ParseUnverified s) as [token|e]; [|done].
  rewrite bind_lift.
  destruct (bool_decide (Method token = SigningMethodRS256)); simpl; [|done].
  unfold Valid at 1, bind at 1 2, time_Now, ret. simpl.
  destruct (_ && _); simpl; [|done].
  unfold Valid, bind at 1 2, time_Now, ret. simpl.
  destruct (valid_at _ _); simpl; [|done].
  unfold bind at 1. simpl.
  destruct (VerifyExpiresAt _ _ _); simpl; [|done].
  destruct (Claims token !! "token_id") as [[| | |b64|]|]; try done.
  destruct (DecodeString b64) as [tokenID|]; [|done].
  rewrite bind_lift. destruct (aead_Open (cipherKeys c) ep) as [p'|e]; [|done].
  destruct (hmac_Equal (Packet.id secretLen p') tokenID); [|done].
  by intros [= _ <-].
Qed.

Lemma ValidateJWT_fst c ep s w :
  fst (ValidateJWT c ep s w)
  = match fst (verifyAccess c ep s w) with Ok _ => Ok tt | Err e => Err e end.
Proof.
  unfold ValidateJWT, bind. by destruct (verifyAccess c ep s w) as [[p|e] w'].
Qed.

Lemma ValidateJWT_snd c ep s w :
  snd (ValidateJWT c ep s w) = snd (verifyAccess c ep s w).
Proof.
  unfold ValidateJWT, bind. by destruct (verifyAccess c ep s w) as [[p|e] w'].
Qed.

Lemma VerifyExpiresAt_required cl now :
  VerifyExpiresAt cl now true = true <->
  exists e, cl !! "exp" = Some (VNum e) /\ e <> 0 /\ now <= e.
Proof.
  unfold VerifyExpiresAt, verifyExp.
  destruct (cl !! "exp") as [[| |e| |]|]; simpl;
    try (split; [done | by intros (? & [=] & _)]).
  destruct (Z.eqb_spec e 0) as [->|Hne]; simpl.
  - split; [done|]. by intros (? & [= <-] & ? & _).
  - rewrite Z.leb_le. split; [eauto|]. by intros (? & [= <-] & _ & ?).
Qed.

Lemma VerifyExpiresAt_optional cl now e :
  cl !! "exp" = Some (VNum e) -> e <> 0 ->
  VerifyExpiresAt cl now false = true <-> now <= e.
Proof.
  intros Hexp Hne. unfold VerifyExpiresAt, verifyExp. rewrite Hexp.
  destruct (Z.eqb_spec e 0); [done|]. apply Z.leb_le.
Qed.

Lemma valid_at_intro cl now e :
  cl !! "exp" = Some (VNum e) -> now <= e ->
  (forall t, cl !! "iat" = Some (VNum t) -> t <= now) ->
  (forall t, cl !! "nbf" = Some (VNum t) -> t <= now) ->
  valid_at cl now = true.
Proof.
  intros Hexp Hle Hiat Hnbf. unfold valid_at.
  rewrite !andb_true_iff. repeat split.
  - unfold VerifyExpiresAt, verifyExp. rewrite Hexp.
    destruct (e =? 0); [done|]. by apply Z.leb_le.
  - unfold VerifyIssuedAt, verifyIat.
    destruct (cl !! "iat") as [[| |t| |]|]; try done.
    destruct (t =? 0); [done|]. apply Z.leb_le. by apply Hiat.
  - unfold VerifyNotBefore, verifyNbf.
    destruct (cl !! "nbf") as [[| |t| |]|]; try done.
    destruct (t =? 0); [done|]. apply Z.leb_le. by apply Hnbf.
Qed.

Lemma valid_at_expiry cl now e :
  cl !! "exp" = Some (VNum e) -> e <> 0 -> valid_at cl now = true -> now <= e.
Proof.
  intros Hexp Hne. unfold valid_at. rewrite !andb_true_iff.
  intros [[Hv _] _]. by apply (VerifyExpiresAt_optional _ _ _ Hexp Hne).
Qed.

(** What a token that passes the checks looks like. *)
Lemma token_checks_Some c s w tokenID :
  token_checks c s w = Some tokenID ->
  exists hdr cl e b64,
    jws_decode s = Some (hdr, cl)
    /\ hdr !! "alg" = Some (VStr "RS256")
    /\ Method_Verify SigningMethodRS256 s (PublicKey_of (signKey c)) = true
    /\ cl !! "exp" = Some (VNum e) /\ e <> 0
    /\ (forall i, (i < 3)%nat -> reading w i <= e)
    /\ valid_at cl (reading w 0) = true
    /\ valid_at cl (reading w 1) = true
    /\ cl !! "token_id" = Some (VStr b64)
    /\ DecodeString b64 = Some tokenID.
Proof.
  unfold token_checks.
  destruct (ParseUnverified s) as [token|] eqn:Hparse; [|done].
  apply ParseUnverified_Ok_inv in Hparse as (alg & Hd & Halg & Hm).
  destruct (_ && _) eqn:Hall; [|done].
  rewrite !andb_true_iff in Hall.
  destruct Hall as [[[Hrs [Hv0 Hsig]] Hv1] Hexp].
  apply bool_decide_eq_true in Hrs. rewrite Hrs in *.
  apply GetSigningMethod_RS256 in Hm as ->.
  apply VerifyExpiresAt_required in Hexp as (e & He & Hne & Hle2).
  destruct (Claims token !! "token_id") as [[| | |b64|]|] eqn:Hid; try done.
  intros Hdec. exists (Header token), (Claims token), e, b64.
  repeat split; try done.
  intros i Hi.
  destruct i as [|[|[|]]]; [| | |lia].
  - by apply (valid_at_expiry (Claims token)).
  - by apply (valid_at_expiry (Claims token)).
  - done.
Qed.

Lemma token_checks_intro c s w hdr cl b64 tokenID :
  jws_decode s = Some (hdr, cl) ->
  hdr !! "alg" = Some (VStr "RS256") ->
  Method_Verify SigningMethodRS256 s (PublicKey_of (signKey c)) = true ->
  valid_at cl (reading w 0) = true ->
  valid_at cl (reading w 1) = true ->
  VerifyExpiresAt cl (reading w 2) true = true ->
  cl !! "token_id" = Some (VStr b64) ->
  DecodeString b64 = Some tokenID ->
  token_checks c s w = Some tokenID.
Proof.
  intros Hd Halg Hsig Hv0 Hv1 Hexp Hid Hdec. unfold token_checks.
  rewrite (ParseUnverified_RS256 _ _ _ Hd Halg). simpl.
  by rewrite Hv0, Hsig, Hv1, Hexp, Hid.
Qed.

Lemma defect_rejected c ep s w :
  defect c ep s w -> fst (verifyAccess c ep s w) = Err ErrInvalidJWT.
Proof.
  intros Hdef. rewrite verifyAccess_fst.
  destruct (token_checks c s w) as [tokenID|] eqn:Hchk; [|done].
  apply token_checks_Some in Hchk
    as (hdr & cl & e & b64 & Hd & Halg & Hsig & Hexp & Hne & Hle & _ & _ & Hid & Hdec).
  destruct Hdef as [Hd'|hdr' cl' Hd' Ha|Hs|hdr' cl' Hd' He|hdr' cl' e' i Hd' He Hi Hlt
                   |hdr' cl' Hd' Hb|hdr' cl' b64' tid' p Hd' Hid' Hdec' Hopen Hneq];
    rewrite ?Hd in *; simplify_eq.
  - congruence.
  - by destruct Hne; apply He.
  - specialize (Hle i Hi). lia.
  - rewrite (Hb _ Hid) in Hdec. done.
  - rewrite Hopen. rewrite hmac_Equal_neq; [done|]. congruence.
Qed.

(** C2, as the code has it.  A token with any of the defects listed under
    [defect] is answered with [ErrInvalidJWT], by [verifyAccess] and by
    [ValidateJWT]; and an error of [ValidateJWT] is either [ErrInvalidJWT],
    with nothing telling the defects apart, or the error of decrypting the
    packet. *)
Theorem token_verification c ep s w :
  (defect c ep s w ->
     fst (verifyAccess c ep s w) = Err ErrInvalidJWT
     /\ fst (ValidateJWT c ep s w) = Err ErrInvalidJWT)
  /\ (forall e, fst (ValidateJWT c ep s w) = Err e ->
        e = ErrInvalidJWT \/ aead_Open (cipherKeys c) ep = Err e).
Proof.
  split.
  - intros Hdef%defect_rejected. by rewrite ValidateJWT_fst, Hdef.
  - intros e. rewrite ValidateJWT_fst, verifyAccess_fst.
    destruct (token_checks c s w) as [tokenID|]; [|by intros [= <-]; left].
    destruct (aead_Open (cipherKeys c) ep) as [p|e']; [|by intros [= <-]; right].
    destruct (hmac_Equal (Packet.id secretLen p) tokenID); [done|].
    by intros [= <-]; left.
Qed.

(** C10, as the code has it.  With a packet that decrypts, a token in RS256
    whose signature verifies under the engine's key, whose [exp] is an
    integer other than 0, of magnitude at most [2 ^ 53] (which [float64]
    holds exactly, so that jwt-go's [int64(...)] gives it back), that no
    reading of the clock has passed, whose [iat] and [nbf], if numbers, are
    not ahead of the clock, and whose [token_id] is the base64 of the
    packet's id, is accepted.  Nothing is asked of [iss], [sub] or
    [user_id]: they may hold any value or be absent. *)
Theorem identity_claims_ignored c ep s w p hdr cl e :
  base64_round_trip ->
  aead_Open (cipherKeys c) ep = Ok p ->
  jws_decode s = Some (hdr, cl) ->
  hdr !! "alg" = Some (VStr "RS256") ->
  Method_Verify SigningMethodRS256 s (PublicKey_of (signKey c)) = true ->
  cl !! "exp" = Some (VNum e) -> e <> 0 -> - 2 ^ 53 <= e <= 2 ^ 53 ->
  (forall i, (i < 3)%nat -> reading w i <= e) ->
  (forall t i, cl !! "iat" = Some (VNum t) -> (i < 2)%nat -> t <= reading w i) ->
  (forall t i, cl !! "nbf" = Some (VNum t) -> (i < 2)%nat -> t <= reading w i) ->
  cl !! "token_id" = Some (VStr (EncodeToString (Packet.id secretLen p))) ->
  ValidateJWT c ep s w = (Ok tt, tick (tick (tick w))).
Proof.
  intros Hb64 Hopen Hd Halg Hsig Hexp Hne _ Hle Hiat Hnbf Hid.
  assert (token_checks c s w = Some (Packet.id secretLen p)) as Hchk.
  { eapply token_checks_intro; try done.
    - eapply valid_at_intro; eauto.
    - eapply valid_at_intro; eauto.
    - apply VerifyExpiresAt_required. eauto 10. }
  pose proof (verifyAccess_fst c ep s w) as Hfst.
  rewrite Hchk, Hopen, hmac_Equal_refl in Hfst.
  destruct (verifyAccess c ep s w) as [r w'] eqn:Hacc. simpl in Hfst. subst r.
  pose proof (verifyAccess_snd_Ok _ _ _ _ _ _ Hacc) as ->.
  unfold ValidateJWT. by rewrite (bind_run _ _ _ _ _ Hacc).
Qed.

(** C4.  A token that [ValidatePin] issued for packet [ep1] is answered
    with [ErrInvalidJWT] when presented with the packet [ChangePin] made
    from [ep1], provided the 32 bytes [ChangePin] drew for the new id differ
    from the old id. *)
Theorem token_bound_to_packet c ep1 pin userID w tok w1 old new w2 ep2 w3 p1 w4 :
  cipher_round_trip -> packets_sized -> base64_round_trip -> jws_round_trip ->
  ValidatePin c ep1 pin userID w = (Ok tok, w1) ->
  ChangePin c ep1 old new w2 = (Ok ep2, w3) ->
  aead_Open (cipherKeys c) ep1 = Ok p1 ->
  take 32 (entropy w2) <> Packet.id secretLen p1 ->
  fst (ValidateJWT c ep2 tok w4) = Err ErrInvalidJWT.
Proof.
  intros Hrt Hsz Hb64 Hjws Hval Hchg Hopen Hfresh.
  apply ValidatePin_Ok_inv in Hval as (padded & p & _ & Hopen' & _ & Hsigned & _).
  rewrite Hopen in Hopen'. injection Hopen' as <-.
  apply ChangePin_Ok_inv in Hchg
    as (oldpin & newpin & p' & e' & _ & Hnew & Hopen' & _ & He & Hseal).
  rewrite Hopen in Hopen'. injection Hopen' as <-.
  pose proof (Hsz _ _ _ Hopen) as Hlen.
  assert (length (Packet.setPin newpin p1) = Packet.len secretLen) as Hl1
    by (by apply setPin_length).
  assert (aead_Open (cipherKeys c) ep2
          = Ok (Packet.setID secretLen (take 32 (entropy w2)) (Packet.setPin newpin p1)))
    as Hopen2.
  { eapply Hrt; [|done]. by apply setID_length. }
  apply Hjws in Hsigned. simpl in Hsigned.
  rewrite ValidateJWT_fst, verifyAccess_fst.
  destruct (token_checks c tok w4) as [tokenID|] eqn:Hchk; [|done].
  apply token_checks_Some in Hchk
    as (hdr & cl & e & b64 & Hd & _ & _ & _ & _ & _ & _ & _ & Hid & Hdec).
  rewrite Hsigned in Hd. injection Hd as <- <-.
  change (Some (VStr (EncodeToString (Packet.id secretLen p1))) = Some (VStr b64)) in Hid.
  injection Hid as <-. rewrite Hb64 in Hdec. injection Hdec as <-.
  rewrite Hopen2. rewrite id_setID by (done || by apply length_take_le).
  by rewrite hmac_Equal_neq.
Qed.
End Access.

(** ** The theorems at work on the idealised engine *)

Section Runs.
Import Ideal.
#[local] Existing Instance opaque.
#[local] Existing Instance library.

Lemma ideal_checks_pass w :
  is_Ok (fst (verifyAccess core ep1 token1 w)) = true ->
  checks_pass core ep1 token1 42 keyID1 w.
Proof.
  intros Hacc. split; [done|]. split; [|done]. vm_compute. by eexists.
Qed.

(** After the commitment of the session, a first response is signed and a
    second request for the same commit id finds nothing. *)
Lemma commit_single_use_witness :
  is_Ok (fst (GenerateResponse core ep1 token1 commitID1 42 keyID1 world3)) = true
  /\ fst (GenerateResponse core ep1 token1 commitID1 42 keyID1
            (snd (GenerateResponse core ep1 token1 commitID1 42 keyID1 world3)))
     = Err ErrUnknownCommit.
Proof.
  split; [by vm_compute|].
  apply (commit_single_use core commitID1 ep1 token1 42 keyID1 world3
           ep1 token1 42 keyID1).
  - apply ideal_checks_pass. by vm_compute.
  - apply ideal_checks_pass. by vm_compute.
Defined.

(** A challenge of 257 bits is refused, and the commitment of the session
    is still there for the challenge 42. *)
Lemma challenge_out_of_bounds_witness :
  GenerateResponse core ep1 token1 commitID1 (2 ^ 256) keyID1 world3
  = (Err ErrInvalidChallenge, world3)
  /\ is_Ok (fst (GenerateResponse core ep1 token1 commitID1 42 keyID1
                   (snd (GenerateResponse core ep1 token1 commitID1 (2 ^ 256) keyID1
                           world3)))) = true.
Proof.
  destruct (challenge_out_of_bounds core ep1 token1 commitID1 (2 ^ 256) keyID1 world3)
    as [Hrej Hnext]; [right; by vm_compute|].
  split; [exact Hrej|].
  rewrite (Hnext ep1 token1 42 keyID1 11 packet1 (tick (tick (tick world3))) 46);
    by vm_compute.
Defined.

(** The session's packet after the change of PIN: same secret bytes. *)
Lemma ChangePin_preserves_secret_witness :
  exists p2 newpin,
    aead_Open (cipherKeys core) ep2 = Ok p2
    /\ Packet.keyshareSecret secretLen p2 = Packet.keyshareSecret secretLen packet1
    /\ padPin "5678" = Ok newpin
    /\ padPin "1234" = Ok (Packet.pin packet1)
    /\ p2 = newpin ++ slice 64 secretLen packet1 ++ take 32 (entropy world3).
Proof.
  apply (ChangePin_preserves_secret core ep1 "1234" "5678" world3 ep2 world4 packet1).
  - apply ideal_cipher_round_trip.
  - apply ideal_packets_sized.
  - by vm_compute.
  - by vm_compute.
Defined.

(** The session's packet accepts "1234" and refuses "9999". *)
Lemma pin_authentication_witness :
  (exists tok, ValidatePin core ep1 "1234" "u" world1 = (Ok tok, tick (tick world1)))
  /\ ValidatePin core ep1 "9999" "u" world1 = (Err ErrInvalidPin, world1).
Proof.
  destruct (pin_authentication core "1234" world0 ep1 world1 "u" world1)
    as (_ & Hok & _ & Hbad).
  - apply ideal_cipher_round_trip.
  - apply ideal_signs.
  - by vm_compute.
  - split; [exact Hok|]. apply Hbad; [simpl; lia|].
    intros [k [E|E]]; destruct k as [|[|[|[|k]]]]; by vm_compute in E.
Defined.

(** C3, refuted as stated: "1234" followed by a zero byte is another
    string of at most 64 bytes, and the packet made for "1234" answers it
    with the very token it gives for "1234". *)
Lemma pin_with_trailing_zero_accepted :
  GenerateKeyshareSecret core "1234" world0 = (Ok ep1, world1)
  /\ pin_nul <> "1234"
  /\ (length (list_byte_of_string pin_nul) <= 64)%nat
  /\ ValidatePin core ep1 pin_nul "u" world1 = (Ok token1, world2)
  /\ ValidatePin core ep1 pin_nul "u" world1 <> (Err ErrInvalidPin, world1).
Proof.
  split; [by vm_compute|]. split; [by vm_compute|]. split; [simpl; lia|].
  assert (ValidatePin core ep1 pin_nul "u" world1 = (Ok token1, world2)) as E
    by (by vm_compute).
  split; [exact E|]. by rewrite E.
Qed.

(** The token of the session carries the claims the theorem lists. *)
Lemma ValidatePin_token_witness :
  exists p token,
    aead_Open (cipherKeys core) ep1 = Ok p
    /\ length (Packet.id secretLen p) = 32%nat
    /\ SignedString token (signKey core) = Ok token1
    /\ Method token = SigningMethodRS256
    /\ Header token !! "alg" = Some (VStr "RS256")
    /\ Header token !! "kid" = Some (VNum (signKeyID core))
    /\ Claims token !! "iss" = Some (VStr "keyshare_server")
    /\ Claims token !! "sub" = Some (VStr "auth_tok")
    /\ Claims token !! "user_id" = Some (VStr "u")
    /\ Claims token !! "token_id"
       = Some (VStr (EncodeToString (Packet.id secretLen p)))
    /\ Claims token !! "iat" = Some (VNum (reading world1 0))
    /\ Claims token !! "exp" = Some (VNum (reading world1 1 + 180))
    /\ (reading world1 1 = reading world1 0 ->
        Claims token !! "exp" = Some (VNum (reading world1 0 + 180))).
Proof.
  apply (ValidatePin_token core ep1 "1234" "u" world1 token1 world2).
  - apply ideal_packets_sized.
  - by vm_compute.
Defined.

(** C7, refuted as stated: when the clock passes a full second between the
    two readings, [exp] is [iat + 181]. *)
Lemma expiry_not_180_after_issue :
  fst (ValidatePin core ep1 "1234" "u" world_ticking) = Ok token_ticking
  /\ reading world_ticking 0 = 1699999999
  /\ reading world_ticking 1 = 1700000000
  /\ snd (fst token_ticking) !! "iat" = Some (VNum 1699999999)
  /\ snd (fst token_ticking) !! "exp" = Some (VNum 1700000180)
  /\ 1700000180 <> 1699999999 + 180.
Proof. by vm_compute. Qed.

(** A token with the header of an unsigned token is refused. *)
Lemma token_verification_witness :
  fst (verifyAccess core ep1 token_none world2) = Err ErrInvalidJWT
  /\ fst (ValidateJWT core ep1 token_none world2) = Err ErrInvalidJWT.
Proof.
  apply (token_verification core ep1 token_none world2).
  eapply defect_algorithm; [reflexivity|]. by vm_compute.
Defined.

(** C2, refuted as stated: at the very second of its expiry, which is not
    strictly in the future, the token of the session is still accepted. *)
Lemma token_accepted_at_expiry :
  snd (fst token1) !! "exp" = Some (VNum 1700000180)
  /\ (forall i, reading world_expiry i = 1700000180)
  /\ fst (ValidateJWT core ep1 token1 world_expiry) = Ok tt
  /\ fst (verifyAccess core ep1 token1 world_expiry) = Ok packet1.
Proof.
  split; [by vm_compute|]. split; [intros i; by vm_compute|]. by vm_compute.
Qed.

(** A signed token with an expiry and a [token_id] and no other claim is
    accepted. *)
Lemma identity_claims_ignored_witness :
  ValidateJWT core ep1 token_bare world2 = (Ok tt, tick (tick (tick world2))).
Proof.
  apply (identity_claims_ignored core ep1 token_bare world2 packet1
           rs256_header bare_claims 1700000180).
  - apply ideal_base64_round_trip.
  - by vm_compute.
  - by vm_compute.
  - by vm_compute.
  - by vm_compute.
  - by vm_compute.
  - done.
  - lia.
  - intros i _. by vm_compute.
  - intros t i Hiat. by vm_compute in Hiat.
  - intros t i Hnbf. by vm_compute in Hnbf.
  - by vm_compute.
Defined.

(** C10, refuted as stated: signed by the engine's key, expiry in the
    future, the right [token_id], and still refused, for its [nbf]. *)
Lemma token_with_late_nbf_refused :
  SignedString
    (mkToken SigningMethodRS256 rs256_header (<["nbf" := VNum 1800000000]> bare_claims))
    (signKey core) = Ok token_nbf
  /\ Method_Verify SigningMethodRS256 token_nbf (PublicKey_of (signKey core)) = true
  /\ aead_Open (cipherKeys core) ep1 = Ok packet1
  /\ snd (fst token_nbf) !! "exp" = Some (VNum 1700000180)
  /\ (forall i, reading world2 i < 1700000180)
  /\ snd (fst token_nbf) !! "token_id"
     = Some (VStr (EncodeToString (Packet.id secretLen packet1)))
  /\ fst (ValidateJWT core ep1 token_nbf world2) = Err ErrInvalidJWT.
Proof.
  split; [by vm_compute|]. split; [by vm_compute|]. split; [by vm_compute|].
  split; [by vm_compute|]. split; [intros i; by vm_compute|]. by vm_compute.
Qed.

(** The token of the session is refused with the packet of the new PIN. *)
Lemma token_bound_to_packet_witness :
  fst (ValidateJWT core ep2 token1 world4) = Err ErrInvalidJWT.
Proof.
  apply (token_bound_to_packet core ep1 "1234" "u" world1 token1 world2
           "1234" "5678" world3 ep2 world4 packet1 world4).
  - apply ideal_cipher_round_trip.
  - apply ideal_packets_sized.
  - apply ideal_base64_round_trip.
  - apply ideal_jws_round_trip.
  - by vm_compute.
  - by vm_compute.
  - by vm_compute.
  - by vm_compute.
Defined.
End Runs.

(** * Further properties of the engine *)

Lemma ideal_signature_valid : @signature_valid Ideal.opaque Ideal.library.
Proof.
  intros t k s Hm. simpl. unfold Ideal.sign, Ideal.verify. intros [= <-]. simpl.
  by rewrite Z.eqb_refl.
Qed.

(** ** Steps that leave a part of the state alone *)

Lemma keeps_ret' {X A} (f : World -> X) (a : A) : keeps f (ret a).
Proof. done. Qed.

Lemma keeps_fail' {X A} (f : World -> X) (e : error) : keeps f (@fail A e).
Proof. done. Qed.

Lemma keeps_lift' {X A} (f : World -> X) (r : result A) : keeps f (lift r).
Proof. done. Qed.

Lemma keeps_bind' {X A B} (f : World -> X) (m : M A) (k : A -> M B) :
  keeps f m -> (forall a, keeps f (k a)) -> keeps f (bind m k).
Proof.
  intros Hm Hk w. unfold bind. specialize (Hm w).
  destruct (m w) as [[a|e] w1]; simpl in *; [|done].
  by rewrite Hk.
Qed.

Lemma keeps_or_else' {X A} (f : World -> X) (e : error) (m : M A) :
  keeps f m -> keeps f (or_else e m).
Proof.
  intros Hm w. unfold or_else. specialize (Hm w).
  by destruct (m w) as [[a|e0] w1].
Qed.

Lemma keeps_if' {X A} (f : World -> X) (b : bool) (m1 m2 : M A) :
  keeps f m1 -> keeps f m2 -> keeps f (if b then m1 else m2).
Proof. by destruct b. Qed.

Lemma time_Now_entropy : keeps entropy time_Now.
Proof. done. Qed.

Lemma fetch_commit_entropy i : keeps entropy (fetch_commit i).
Proof. done. Qed.

Lemma rand_Read_ticks n : keeps ticks (rand_Read n).
Proof. intros w. unfold rand_Read. by case_match. Qed.

Lemma drawing_ticks {A} (g : bytes -> result A * bytes) : keeps ticks (drawing g).
Proof. intros w. unfold drawing. by destruct (g (entropy w)). Qed.

Create HintDb keeps.
#[global] Hint Resolve keeps_ret' keeps_fail' keeps_lift' keeps_or_else'
  time_Now_entropy fetch_commit_entropy rand_Read_ticks drawing_ticks : keeps.
#[global] Hint Extern 2 (keeps _ (bind _ _)) =>
  apply keeps_bind'; [|intros ?] : keeps.
#[global] Hint Extern 2 (keeps _ (if _ then _ else _)) => apply keeps_if' : keeps.
#[global] Hint Extern 3 (keeps _ (match ?x with _ => _ end)) => destruct x : keeps.

Section Coverage.
Context `{Library}.

(** *** Resources *)

Lemma verifyAccess_entropy c ep s : keeps entropy (verifyAccess c ep s).
Proof.
  unfold verifyAccess, jwt_Parse, Valid, decryptPacket. auto 30 with keeps.
Qed.

(** X1.  [ValidateJWT] draws nothing from the entropy source: it parses and
    verifies, decodes and decrypts, and nothing else.  [GenerateKeyshareSecret],
    [DangerousBuildKeyshareSecret] and [ChangePin] do not read the clock.
    Nothing is said here of the entropy [ValidatePin] and [GenerateResponse]
    use: both end in [SignedString], and what RSA signing draws is the
    library's affair. *)
Theorem entropy_and_clock_use (c : Core) :
  (forall ep jwt, keeps entropy (ValidateJWT c ep jwt))
  /\ (forall pin, keeps ticks (GenerateKeyshareSecret c pin))
  /\ (forall pin secret, keeps ticks (DangerousBuildKeyshareSecret c pin secret))
  /\ (forall ep old new, keeps ticks (ChangePin c ep old new)).
Proof.
  repeat split; intros.
  - unfold ValidateJWT. auto using verifyAccess_entropy with keeps.
  - unfold GenerateKeyshareSecret, encryptPacket. auto 20 with keeps.
  - unfold DangerousBuildKeyshareSecret, encryptPacket. auto 20 with keeps.
  - unfold ChangePin, decryptPacket, encryptPacket. auto 20 with keeps.
Qed.

(** *** Key resolution and the commit/response pair *)

Lemma buildKeyList_resolve c keyIDs acc :
  buildKeyList c keyIDs acc
  = match resolve c keyIDs with
    | Some keys => Ok (acc ++ keys)
    | None => Err ErrKeyNotFound
    end.
Proof.
  revert acc. induction keyIDs as [|keyID rest IH]; intros acc.
  - simpl. by rewrite app_nil_r.
  - unfold resolve in *. cbn [buildKeyList mapM].
    destruct (trustedKeys c !! keyID) as [key|]; simpl; [|done].
    rewrite IH. destruct (mapM _ rest) as [keys|]; simpl; [|done].
    by rewrite <- app_assoc.
Qed.

Lemma resolve_Some c keyIDs keys :
  resolve c keyIDs = Some keys ->
  Forall2 (fun keyID key => trustedKeys c !! keyID = Some key) keyIDs keys.
Proof. unfold resolve. by intros ?%mapM_Some. Qed.

(** X2.  One unknown key identifier anywhere in the list makes
    [GenerateCommitments] fail with [ErrKeyNotFound] before it looks at the
    token or the packet, the state untouched. *)
Theorem GenerateCommitments_unknown_key c ep tok keyIDs keyID w :
  keyID ∈ keyIDs -> trustedKeys c !! keyID = None ->
  GenerateCommitments c ep tok keyIDs w = (Err ErrKeyNotFound, w).
Proof.
  intros Hin Hnone. unfold GenerateCommitments.
  rewrite bind_lift, buildKeyList_resolve.
  assert (resolve c keyIDs = None) as ->; [|done].
  apply mapM_None_2, Exists_exists. eauto.
Qed.

Lemma verifyAccess_Ok_inv c ep s w p w' :
  verifyAccess c ep s w = (Ok p, w') ->
  aead_Open (cipherKeys c) ep = Ok p
  /\ token_checks c s w = Some (Packet.id secretLen p)
  /\ w' = tick (tick (tick w)).
Proof.
  intros E. pose proof (verifyAccess_fst c ep s w) as Hfst.
  pose proof (verifyAccess_snd_Ok _ _ _ _ _ _ E) as ->.
  rewrite E in Hfst. simpl in Hfst.
  destruct (token_checks c s w) as [tokenID|]; [|done].
  destruct (aead_Open (cipherKeys c) ep) as [p'|]; [|done].
  destruct (hmac_Equal (Packet.id secretLen p') tokenID) eqn:Heq; [|done].
  apply hmac_Equal_spec in Heq. injection Hfst as ->. by rewrite Heq.
Qed.

Lemma GenerateCommitments_Ok_inv c ep tok keyIDs w commitments commitID w' :
  GenerateCommitments c ep tok keyIDs w = (Ok (commitments, commitID), w') ->
  exists keyList p commitSecret e,
    resolve c keyIDs = Some keyList
    /\ aead_Open (cipherKeys c) ep = Ok p
    /\ NewKeyshareCommitments (Packet.keyshareSecret secretLen p) keyList (entropy w)
       = (Ok (commitSecret, commitments), e)
    /\ (8 <= length e)%nat
    /\ commitID = le_uint (take 8 e)
    /\ w' = mkWorld (<[commitID := commitSecret]> (commitmentData w))
                    (drop 8 e) (clock w) (3 + ticks w).
Proof.
  unfold GenerateCommitments. rewrite bind_lift, buildKeyList_resolve.
  destruct (resolve c keyIDs) as [keyList|]; [|done]. simpl.
  intros (p & w1 & Hacc & E)%bind_Ok_inv.
  apply verifyAccess_Ok_inv in Hacc as (Hopen & _ & ->).
  apply bind_Ok_inv in E as ([commitSecret cs] & w2 & Hdraw & E).
  unfold drawing in Hdraw. simpl in Hdraw.
  destruct (NewKeyshareCommitments _ _ _) as [r e] eqn:Hnew.
  injection Hdraw as -> <-.
  apply bind_Ok_inv in E as (raw & w3 & Hrand & E).
  apply rand_Read_Ok in Hrand as (-> & Hlen & ->). simpl in *.
  unfold bind, store_commit, ret in E. simpl in E. injection E as <- <- <-.
  exists keyList, p, commitSecret, e. rewrite length_take in Hlen.
  repeat split; try done. lia.
Qed.

Lemma GenerateCommitments_access c ep tok keyIDs w r w' :
  GenerateCommitments c ep tok keyIDs w = (Ok r, w') ->
  exists p, fst (verifyAccess c ep tok w) = Ok p
            /\ aead_Open (cipherKeys c) ep = Ok p.
Proof.
  unfold GenerateCommitments. rewrite bind_lift.
  destruct (buildKeyList c keyIDs []) as [keyList|]; [|done].
  intros (p & w1 & Hacc & _)%bind_Ok_inv. exists p. rewrite Hacc.
  by apply verifyAccess_Ok_inv in Hacc as (Hopen & _).
Qed.

Lemma GenerateCommitments_run c ep tok keyIDs w keyList p commitSecret commitments e :
  resolve c keyIDs = Some keyList ->
  fst (verifyAccess c ep tok w) = Ok p ->
  NewKeyshareCommitments (Packet.keyshareSecret secretLen p) keyList (entropy w)
  = (Ok (commitSecret, commitments), e) ->
  (8 <= length e)%nat ->
  GenerateCommitments c ep tok keyIDs w
  = (Ok (commitments, le_uint (take 8 e)),
     mkWorld (<[le_uint (take 8 e) := commitSecret]> (commitmentData w))
             (drop 8 e) (clock w) (3 + ticks w)).
Proof.
  intros Hres Hfst Hnew Hlen.
  destruct (verifyAccess c ep tok w) as [r w1] eqn:Hacc. simpl in Hfst. subst r.
  pose proof (verifyAccess_Ok_inv _ _ _ _ _ _ Hacc) as (_ & _ & ->).
  unfold GenerateCommitments. rewrite bind_lift, buildKeyList_resolve, Hres.
  cbn [app]. rewrite (bind_run _ _ _ _ _ Hacc).
  unfold bind at 1, drawing. cbn [entropy tick]. rewrite Hnew.
  unfold bind at 1, rand_Read. cbn [entropy set_entropy].
  destruct (Nat.leb_spec 8 (length e)); [|lia].
  reflexivity.
Qed.

(** C9.  Of the public operations only [GenerateCommitments] adds to the
    commitment store, and only when it succeeds: then the key identifiers
    resolved, the access check passed, the commitment primitive gave a
    secret and the commitments returned, the commit id returned is the
    eight bytes drawn right after it, read little-endian, and the store is
    the one before with that secret put under that id.  Whenever these
    steps succeed it does succeed, with that id and that store.  Only
    [GenerateResponse] removes from the store, the entry under the commit
    id it was given and only once its challenge, key and access checks have
    passed; the other five leave the store as it was on every path. *)
Theorem commitment_store_frame (c : Core) :
  (forall ep tok keyIDs w,
     match GenerateCommitments c ep tok keyIDs w with
     | (Ok (commitments, commitID), w') =>
         exists keyList p commitSecret e,
           resolve c keyIDs = Some keyList
           /\ fst (verifyAccess c ep tok w) = Ok p
           /\ NewKeyshareCommitments (Packet.keyshareSecret secretLen p) keyList
                (entropy w)
              = (Ok (commitSecret, commitments), e)
           /\ (8 <= length e)%nat
           /\ commitID = le_uint (take 8 e)
           /\ entropy w' = drop 8 e
           /\ commitmentData w' = <[commitID := commitSecret]> (commitmentData w)
     | (Err _, w') => commitmentData w' = commitmentData w
     end)
  /\ (forall ep tok keyIDs w keyList p commitSecret commitments e,
        resolve c keyIDs = Some keyList ->
        fst (verifyAccess c ep tok w) = Ok p ->
        NewKeyshareCommitments (Packet.keyshareSecret secretLen p) keyList (entropy w)
        = (Ok (commitSecret, commitments), e) ->
        (8 <= length e)%nat ->
        GenerateCommitments c ep tok keyIDs w
        = (Ok (commitments, le_uint (take 8 e)),
           mkWorld (<[le_uint (take 8 e) := commitSecret]> (commitmentData w))
                   (drop 8 e) (clock w) (3 + ticks w)))
  /\ (forall ep tok commitID challenge keyID w,
        (checks_pass c ep tok challenge keyID w ->
           commitmentData (snd (GenerateResponse c ep tok commitID challenge keyID w))
           = delete commitID (commitmentData w))
        /\ (~ checks_pass c ep tok challenge keyID w ->
           commitmentData (snd (GenerateResponse c ep tok commitID challenge keyID w))
           = commitmentData w))
  /\ (forall pin, keeps_store (GenerateKeyshareSecret c pin))
  /\ (forall pin secret, keeps_store (DangerousBuildKeyshareSecret c pin secret))
  /\ (forall ep pin userID, keeps_store (ValidatePin c ep pin userID))
  /\ (forall ep jwt, keeps_store (ValidateJWT c ep jwt))
  /\ (forall ep old new, keeps_store (ChangePin c ep old new)).
Proof.
  split; [|split; [|split; [|split; [|split; [|split; [|split]]]]]].
  - intros ep tok keyIDs w.
    pose proof (GenerateCommitments_store c ep tok keyIDs w) as Hstore.
    destruct (GenerateCommitments c ep tok keyIDs w) as [[[commitments commitID]|err] w']
      eqn:E; [|exact Hstore].
    destruct (GenerateCommitments_access _ _ _ _ _ _ _ E) as (p & Hacc & Hopen).
    apply GenerateCommitments_Ok_inv in E
      as (keyList & p' & commitSecret & e & Hres & Hopen' & Hnew & Hlen & -> & ->).
    rewrite Hopen in Hopen'. injection Hopen' as <-.
    by exists keyList, p, commitSecret, e.
  - intros ep tok keyIDs w keyList p commitSecret commitments e.
    apply GenerateCommitments_run.
  - apply GenerateResponse_store.
  - apply keeps_GenerateKeyshareSecret.
  - apply keeps_DangerousBuildKeyshareSecret.
  - apply keeps_ValidatePin.
  - apply keeps_ValidateJWT.
  - apply keeps_ChangePin.
Qed.

(** X3.  The commitments [GenerateCommitments] returns and the secret it stores
    come from one call of the commitment primitive, on the packet's keyshare
    secret and the resolved keys; a following [GenerateResponse] with the
    returned commit id that passes its checks signs the response computed
    from that stored secret, and removes it. *)
Theorem commit_then_respond c ep tok keyIDs w commitments commitID w'
    ep' tok' challenge keyID key p' w1 :
  GenerateCommitments c ep tok keyIDs w = (Ok (commitments, commitID), w') ->
  challenge_ok challenge = true ->
  trustedKeys c !! keyID = Some key ->
  verifyAccess c ep' tok' w' = (Ok p', w1) ->
  exists keyList p commitSecret e,
    resolve c keyIDs = Some keyList
    /\ aead_Open (cipherKeys c) ep = Ok p
    /\ NewKeyshareCommitments (Packet.keyshareSecret secretLen p) keyList (entropy w)
       = (Ok (commitSecret, commitments), e)
    /\ commitmentData w' !! commitID = Some commitSecret
    /\ GenerateResponse c ep' tok' commitID challenge keyID w'
       = (SignedString
            (newResponseToken c
               (KeyshareResponse (Packet.keyshareSecret secretLen p') commitSecret
                  challenge key)
               (clock w1 (ticks w1)))
            (signKey c),
          tick (set_commitmentData (delete commitID (commitmentData w')) w1)).
Proof.
  intros (keyList & p & commitSecret & e & Hres & Hopen & Hnew & _ & _ & Hw')
    %GenerateCommitments_Ok_inv Hch Hkey Hacc.
  exists keyList, p, commitSecret, e.
  assert (commitmentData w' !! commitID = Some commitSecret) as Hstored
    by (rewrite Hw'; apply lookup_insert_eq).
  repeat split; try done.
  rewrite (GenerateResponse_fetch _ _ _ _ _ _ _ _ _ _ Hch Hkey Hacc).
  pose proof (keeps_verifyAccess c ep' tok' w') as Hk. rewrite Hacc in Hk. simpl in Hk.
  by rewrite Hk, Hstored.
Qed.

(** *** Errors of [GenerateResponse], in the order of its checks *)

(** X4.  With a challenge in range, an unknown key identifier gives
    [ErrKeyNotFound] and the state is untouched; with a known key, a failing
    access check gives the error of [verifyAccess], and the commitment store
    is as it was: the record under the commit id survives both. *)
Theorem GenerateResponse_errors c ep tok commitID challenge keyID w :
  0 <= challenge < 2 ^ 256 ->
  (trustedKeys c !! keyID = None ->
     GenerateResponse c ep tok commitID challenge keyID w = (Err ErrKeyNotFound, w))
  /\ (forall key e w1,
        trustedKeys c !! keyID = Some key ->
        verifyAccess c ep tok w = (Err e, w1) ->
        GenerateResponse c ep tok commitID challenge keyID w = (Err e, w1)
        /\ commitmentData w1 = commitmentData w).
Proof.
  intros Hch%challenge_ok_range. unfold challenge_ok in Hch.
  apply negb_true_iff in Hch. split.
  - intros Hkey. unfold GenerateResponse. by rewrite Hch, Hkey.
  - intros key e w1 Hkey Hacc. unfold GenerateResponse. rewrite Hch, Hkey.
    rewrite (bind_stop _ _ _ _ _ Hacc). split; [done|].
    pose proof (keeps_verifyAccess c ep tok w) as Hk. by rewrite Hacc in Hk.
Qed.

(** *** Entries under other commit ids *)

Lemma checks_pass_dec c ep tok challenge keyID w :
  checks_pass c ep tok challenge keyID w \/ ~ checks_pass c ep tok challenge keyID w.
Proof.
  unfold checks_pass.
  destruct (challenge_ok challenge); [|right; by intros [? _]].
  destruct (trustedKeys c !! keyID) as [key|];
    [|right; by intros (_ & [? ?] & _)].
  destruct (is_Ok (fst (verifyAccess c ep tok w))); [|right; by intros (_ & _ & ?)].
  left. eauto.
Qed.

(** X5.  Neither [GenerateResponse] nor [GenerateCommitments] changes what is
    stored under a commit id other than the one it was given, respectively
    the one it returns. *)
Theorem other_commits_untouched c j :
  (forall ep tok commitID challenge keyID w,
     j <> commitID ->
     commitmentData (snd (GenerateResponse c ep tok commitID challenge keyID w)) !! j
     = commitmentData w !! j)
  /\ (forall ep tok keyIDs w commitments commitID w',
        GenerateCommitments c ep tok keyIDs w = (Ok (commitments, commitID), w') ->
        j <> commitID ->
        commitmentData w' !! j = commitmentData w !! j).
Proof.
  split.
  - intros ep tok commitID challenge keyID w Hne.
    destruct (GenerateResponse_store c ep tok commitID challenge keyID w) as [Hyes Hno].
    destruct (checks_pass_dec c ep tok challenge keyID w) as [Hp|Hp].
    + rewrite (Hyes Hp). by apply lookup_delete_ne.
    + by rewrite (Hno Hp).
  - intros ep tok keyIDs w commitments commitID w' HGC Hne.
    apply GenerateCommitments_Ok_inv in HGC
      as (keyList & p & commitSecret & e & _ & _ & _ & _ & _ & ->).
    simpl. by apply lookup_insert_ne.
Qed.

(** *** Errors of [ValidatePin] and [ChangePin] *)

(** X6.  [ValidatePin] fails in this order, each time leaving the state
    untouched (no clock read, nothing signed): a PIN longer than 64 bytes,
    whatever the packet; a packet that does not decrypt, with the error of
    decryption; a PIN whose padding is not the packet's PIN field. *)
Theorem ValidatePin_errors c ep pin userID w :
  ((64 < length (list_byte_of_string pin))%nat ->
     ValidatePin c ep pin userID w = (Err ErrPinTooLong, w))
  /\ (forall e, (length (list_byte_of_string pin) <= 64)%nat ->
        aead_Open (cipherKeys c) ep = Err e ->
        ValidatePin c ep pin userID w = (Err e, w))
  /\ (forall p padded, padPin pin = Ok padded ->
        aead_Open (cipherKeys c) ep = Ok p ->
        Packet.pin p <> padded ->
        ValidatePin c ep pin userID w = (Err ErrInvalidPin, w)).
Proof.
  repeat split.
  - intros Hlong. unfold ValidatePin. by rewrite bind_lift, padPin_long.
  - intros e Hle Hopen. unfold ValidatePin, decryptPacket.
    by rewrite bind_lift, padPin_short, bind_lift, Hopen.
  - intros p padded Hpad Hopen Hne.
    rewrite (ValidatePin_run _ _ _ _ _ _ _ Hpad Hopen).
    by rewrite hmac_Equal_neq.
Qed.

(** X7.  [ChangePin] fails in this order, each time leaving the state untouched
    (no entropy drawn): old PIN longer than 64 bytes; new PIN longer than 64
    bytes, checked before the packet is decrypted and the old PIN compared;
    a packet that does not decrypt; an old PIN whose padding is not the
    packet's PIN field. *)
Theorem ChangePin_errors c ep old new w :
  ((64 < length (list_byte_of_string old))%nat ->
     ChangePin c ep old new w = (Err ErrPinTooLong, w))
  /\ ((length (list_byte_of_string old) <= 64)%nat ->
      (64 < length (list_byte_of_string new))%nat ->
      ChangePin c ep old new w = (Err ErrPinTooLong, w))
  /\ (forall e, (length (list_byte_of_string old) <= 64)%nat ->
        (length (list_byte_of_string new) <= 64)%nat ->
        aead_Open (cipherKeys c) ep = Err e ->
        ChangePin c ep old new w = (Err e, w))
  /\ (forall p oldpin, padPin old = Ok oldpin ->
        (length (list_byte_of_string new) <= 64)%nat ->
        aead_Open (cipherKeys c) ep = Ok p ->
        Packet.pin p <> oldpin ->
        ChangePin c ep old new w = (Err ErrInvalidPin, w)).
Proof.
  repeat split.
  - intros Hlong. unfold ChangePin. by rewrite bind_lift, padPin_long.
  - intros Hle Hlong. unfold ChangePin.
    by rewrite bind_lift, padPin_short, bind_lift, padPin_long.
  - intros e Hle Hle' Hopen. unfold ChangePin, decryptPacket.
    by rewrite bind_lift, padPin_short, bind_lift, padPin_short, bind_lift, Hopen.
  - intros p oldpin Hold Hle' Hopen Hne. unfold ChangePin, decryptPacket.
    rewrite bind_lift, Hold, bind_lift, padPin_short, bind_lift, Hopen by done.
    by rewrite hmac_Equal_neq.
Qed.

(** *** PIN change, then PIN check *)

Lemma ChangePin_packet c ep old new w ep2 w2 :
  cipher_round_trip -> packets_sized ->
  ChangePin c ep old new w = (Ok ep2, w2) ->
  exists p2 newpin,
    padPin new = Ok newpin
    /\ aead_Open (cipherKeys c) ep2 = Ok p2
    /\ Packet.pin p2 = newpin.
Proof.
  intros Hrt Hsz (oldpin & newpin & p & e' & Hold & Hnew & Hopen & Hpin & He & Hseal)
    %ChangePin_Ok_inv.
  pose proof (Hsz _ _ _ Hopen) as Hlen.
  assert (length (Packet.setPin newpin p) = Packet.len secretLen) as Hl1
    by (by apply setPin_length).
  eexists _, newpin. split; [done|]. split.
  - eapply Hrt; [|done]. by apply setID_length.
  - rewrite pin_setID by done. apply (pin_setPin secretLen); [done|].
    by eapply padPin_length.
Qed.

(** X8.  After [ChangePin] the new packet answers the new PIN with a token, and
    any PIN of at most 64 bytes that is not the new one up to trailing zero
    bytes (the old PIN among them, unless it is) with [ErrInvalidPin]. *)
Theorem ChangePin_then_ValidatePin c ep old new w ep2 w2 userID w3 :
  cipher_round_trip -> packets_sized -> signs (signKey c) ->
  ChangePin c ep old new w = (Ok ep2, w2) ->
  (exists tok, ValidatePin c ep2 new userID w3 = (Ok tok, tick (tick w3)))
  /\ (forall pin', (length (list_byte_of_string pin') <= 64)%nat ->
        ~ same_but_trailing_zeros (list_byte_of_string pin') (list_byte_of_string new) ->
        ValidatePin c ep2 pin' userID w3 = (Err ErrInvalidPin, w3)).
Proof.
  intros Hrt Hsz Hsign (p2 & newpin & Hnew & Hopen & Hpin)%ChangePin_packet; [|done..].
  pose proof (proj1 (padPin_Ok_inv _ _ Hnew)) as Hle.
  split.
  - rewrite (ValidatePin_run _ _ _ _ _ _ _ Hnew Hopen), Hpin, hmac_Equal_refl.
    destruct (Hsign (newAccessToken c userID (Packet.id secretLen p2)
                       (clock w3 (ticks w3)) (clock w3 (S (ticks w3))))) as [tok ->];
      [done|eauto].
  - intros pin' Hle' Hdiff.
    pose proof (padPin_short _ Hle') as Hpad'.
    rewrite (ValidatePin_run _ _ _ _ _ _ _ Hpad' Hopen), Hpin.
    rewrite hmac_Equal_neq; [done|]. intros Heq. apply Hdiff.
    apply padPin_same; [done..|]. by rewrite Hnew, Hpad', Heq.
Qed.

(** *** A token from issue to expiry *)

(** X9.  A token [ValidatePin] issued for a packet is accepted with that packet
    as long as no reading of the verifier's clock has passed its [exp], the
    clock not being behind the time of issue; once a reading has passed
    [exp] the answer is [ErrInvalidJWT]. *)
Theorem issued_token_lifetime c ep pin userID w tok w1 w' :
  base64_round_trip -> jws_round_trip -> signature_valid ->
  ValidatePin c ep pin userID w = (Ok tok, w1) ->
  reading w 1 + 180 <> 0 ->
  ((forall i, (i < 2)%nat -> reading w 0 <= reading w' i) ->
   (forall i, (i < 3)%nat -> reading w' i <= reading w 1 + 180) ->
   ValidateJWT c ep tok w' = (Ok tt, tick (tick (tick w'))))
  /\ (forall i, (i < 3)%nat -> reading w 1 + 180 < reading w' i ->
      fst (ValidateJWT c ep tok w') = Err ErrInvalidJWT).
Proof.
  intros Hb64 Hjws Hsig (padded & p & _ & Hopen & _ & Hsigned & _)%ValidatePin_Ok_inv Hne.
  set (t := newAccessToken c userID (Packet.id secretLen p)
              (clock w (ticks w)) (clock w (S (ticks w)))) in *.
  pose proof (Hjws _ _ _ Hsigned) as Hd.
  pose proof (Hsig t _ _ (eq_refl : Method t = SigningMethodRS256) Hsigned) as Hver.
  assert (Claims t !! "exp" = Some (VNum (reading w 1 + 180))) as Hexp.
  { unfold reading. rewrite Nat.add_1_r, <- Unix_Add_minutes. reflexivity. }
  assert (Claims t !! "iat" = Some (VNum (reading w 0))) as Hiat.
  { unfold reading. rewrite Nat.add_0_r. reflexivity. }
  split.
  - intros Hissue Hfresh.
    assert (forall i, (i < 2)%nat -> valid_at (Claims t) (reading w' i) = true) as Hvalid.
    { intros i Hi. apply (valid_at_intro _ _ _ Hexp).
      - apply Hfresh. lia.
      - intros t0. rewrite Hiat. intros [= <-]. auto.
      - intros t0. by intros [=]. }
    assert (token_checks c tok w' = Some (Packet.id secretLen p)) as Hchk.
    { apply (token_checks_intro c tok w' (Header t) (Claims t)
               (EncodeToString (Packet.id secretLen p))).
      - done.
      - reflexivity.
      - done.
      - apply Hvalid. lia.
      - apply Hvalid. lia.
      - apply VerifyExpiresAt_required. eauto 10.
      - reflexivity.
      - apply Hb64. }
    pose proof (verifyAccess_fst c ep tok w') as Hfst.
    rewrite Hchk, Hopen, hmac_Equal_refl in Hfst.
    destruct (verifyAccess c ep tok w') as [r w''] eqn:Hacc. simpl in Hfst. subst r.
    pose proof (verifyAccess_snd_Ok _ _ _ _ _ _ Hacc) as ->.
    unfold ValidateJWT. by rewrite (bind_run _ _ _ _ _ Hacc).
  - intros i Hi Hlate. rewrite ValidateJWT_fst.
    rewrite (defect_rejected c ep tok w'); [done|].
    by eapply defect_expired.
Qed.

(** *** Building a packet *)

(** X10.  The packet [DangerousBuildKeyshareSecret] returns decrypts to the padded
    PIN, the given secret and the 32 bytes drawn for the id; it is returned
    only for a secret that fits the packet's secret field. *)
Theorem DangerousBuild_packet c pin secret w ep w' :
  cipher_round_trip ->
  DangerousBuildKeyshareSecret c pin secret w = (Ok ep, w') ->
  exists p padded,
    padPin pin = Ok padded
    /\ aead_Open (cipherKeys c) ep = Ok p
    /\ Packet.pin p = padded
    /\ Packet.keyshareSecret secretLen p = secret
    /\ Packet.id secretLen p = take 32 (entropy w)
    /\ length (Packet.id secretLen p) = 32%nat.
Proof.
  intros Hrt. unfold DangerousBuildKeyshareSecret, encryptPacket. rewrite bind_lift.
  destruct (padPin pin) as [padded|e] eqn:Hpad; [|done].
  intros (id & wb & Hrand & E)%bind_Ok_inv.
  apply rand_Read_Ok in Hrand as (Hid & Hlen & ->).
  rewrite bind_lift in E.
  destruct (Packet.setKeyshareSecret _ _ _) as [p|e] eqn:Hset; [|done].
  unfold drawing in E. simpl in E.
  destruct (aead_Seal _ _ _) as [r e'] eqn:Hs. injection E as -> _.
  assert (length (Packet.setPin padded (Packet.zero secretLen)) = Packet.len secretLen)
    as Hl1 by apply setPin_length, zero_length.
  pose proof (setKeyshareSecret_length _ _ _ _ Hl1 Hset) as Hl2.
  exists (Packet.setID secretLen id p), padded.
  rewrite id_setID by done. repeat split; try done.
  - eapply Hrt; [|done]. by apply setID_length.
  - rewrite pin_setID by done.
    rewrite (pin_setKeyshareSecret _ _ _ _ Hl1 Hset).
    apply (pin_setPin secretLen); [apply zero_length | by eapply padPin_length].
  - unfold Packet.keyshareSecret. rewrite secret_bytes_setID by done.
    by apply (keyshareSecret_setKeyshareSecret _ _ _ _ Hl1 Hset).
Qed.

(** X11.  For a PIN of at most 64 bytes [GenerateKeyshareSecret] is
    [DangerousBuildKeyshareSecret] on the secret it draws first; when the
    draw fails that error is returned. *)
Theorem GenerateKeyshareSecret_as_build c pin w :
  (length (list_byte_of_string pin) <= 64)%nat ->
  GenerateKeyshareSecret c pin w
  = match NewKeyshareSecret (entropy w) with
    | (Ok secret, e) => DangerousBuildKeyshareSecret c pin secret (set_entropy e w)
    | (Err err, e) => (Err err, set_entropy e w)
    end.
Proof.
  intros Hle. unfold GenerateKeyshareSecret, DangerousBuildKeyshareSecret.
  rewrite bind_lift, padPin_short by done.
  unfold bind at 1, drawing at 1.
  destruct (NewKeyshareSecret (entropy w)) as [[secret|err] e]; [|done].
  by rewrite bind_lift.
Qed.

(** X12.  A PIN longer than 64 bytes is refused by both with [ErrPinTooLong]
    before anything is drawn. *)
Theorem build_pin_too_long c pin w :
  (64 < length (list_byte_of_string pin))%nat ->
  GenerateKeyshareSecret c pin w = (Err ErrPinTooLong, w)
  /\ forall secret, DangerousBuildKeyshareSecret c pin secret w = (Err ErrPinTooLong, w).
Proof.
  intros Hlong. unfold GenerateKeyshareSecret, DangerousBuildKeyshareSecret.
  split; [|intros secret]; by rewrite bind_lift, padPin_long.
Qed.
End Coverage.

(** * The metadata attribute *)

(** ** Integers and their bytes *)

Lemma fold_left_SetBytes bs acc :
  fold_left (fun a b => a * 256 + Z.of_N (Byte.to_N b)) bs acc
  = acc * 256 ^ Z.of_nat (length bs) + SetBytes bs.
Proof.
  unfold SetBytes. revert acc. induction bs as [|b bs IH]; intros acc.
  - simpl. change (256 ^ 0) with 1. lia.
  - cbn [fold_left length]. rewrite IH, (IH (0 * 256 + _)).
    rewrite Nat2Z.inj_succ, Z.pow_succ_r by lia. ring.
Qed.

Lemma SetBytes_cons b bs :
  SetBytes (b :: bs) = Z.of_N (Byte.to_N b) * 256 ^ Z.of_nat (length bs) + SetBytes bs.
Proof.
  unfold SetBytes at 1. cbn [fold_left]. rewrite fold_left_SetBytes. ring.
Qed.

Lemma to_N_range b : 0 <= Z.of_N (Byte.to_N b) < 256.
Proof. pose proof (Byte.to_N_bounded b). lia. Qed.

Lemma SetBytes_bound bs : 0 <= SetBytes bs < 256 ^ Z.of_nat (length bs).
Proof.
  induction bs as [|b bs IH].
  - unfold SetBytes. simpl. change (256 ^ 0) with 1. lia.
  - rewrite SetBytes_cons. cbn [length].
    rewrite Nat2Z.inj_succ, Z.pow_succ_r by lia.
    pose proof (to_N_range b). nia.
Qed.

Lemma byte_of_Z_to_N b : byte_of_Z (Z.of_N (Byte.to_N b)) = b.
Proof. unfold byte_of_Z. by rewrite N2Z.id, Byte.of_to_N. Qed.

Lemma be_bytes_SetBytes bs : be_bytes (length bs) (SetBytes bs) = bs.
Proof.
  induction bs as [|b bs IH] using rev_ind; [done|].
  rewrite length_app, Nat.add_1_r. cbn [be_bytes length].
  rewrite SetBytes_snoc. pose proof (to_N_range b).
  rewrite Z.div_add_l, Z.div_small, Z.add_0_r, IH by lia.
  rewrite Z.add_comm, Z.mod_add, Z.mod_small by lia.
  by rewrite byte_of_Z_to_N.
Qed.

(** The number of bytes [big.Int.Bytes] returns. *)
Lemma byte_count x n :
  256 ^ Z.of_nat n <= x < 256 ^ Z.of_nat (S n) ->
  Z.to_nat ((BitLen x + 7) / 8) = S n.
Proof.
  intros [Hlo Hhi].
  assert (0 < x) as Hpos by (pose proof (Z.pow_pos_nonneg 256 (Z.of_nat n)); lia).
  unfold BitLen. destruct (Z.eqb_spec x 0); [lia|]. rewrite Z.abs_eq by lia.
  change 256 with (2 ^ 8) in Hlo, Hhi. rewrite <- Z.pow_mul_r in Hlo, Hhi by lia.
  apply Z.log2_le_pow2 in Hlo; [|done].
  apply Z.log2_lt_pow2 in Hhi; [|done].
  assert ((Z.log2 x + 1 + 7) / 8 = Z.of_nat (S n)) as ->; [|lia].
  symmetry. apply (Z.div_unique _ _ _ (Z.log2 x - 8 * Z.of_nat n)); lia.
Qed.

Lemma Int_Bytes_SetBytes_head b bs :
  b <> x00 -> Int_Bytes (SetBytes (b :: bs)) = b :: bs.
Proof.
  intros Hb. unfold Int_Bytes.
  assert (1 <= Z.of_N (Byte.to_N b)) as Hb1.
  { destruct (N.eq_dec (Byte.to_N b) 0%N) as [E|]; [|lia].
    destruct Hb. apply to_N_inj. by rewrite E. }
  pose proof (SetBytes_bound bs) as Hbs. pose proof (to_N_range b) as Hr.
  assert (256 ^ Z.of_nat (length bs) <= SetBytes (b :: bs)
          < 256 ^ Z.of_nat (S (length bs))) as Hv.
  { rewrite SetBytes_cons, Nat2Z.inj_succ, Z.pow_succ_r by lia. nia. }
  rewrite (byte_count _ _ Hv), Z.abs_eq by lia.
  apply (be_bytes_SetBytes (b :: bs)).
Qed.

Lemma SetBytes_zero bs : SetBytes (x00 :: bs) = SetBytes bs.
Proof. rewrite SetBytes_cons. simpl. lia. Qed.

(** Reading bytes into an integer and writing the integer out drops the
    leading zero bytes and nothing else. *)
Lemma Int_Bytes_SetBytes bs : Int_Bytes (SetBytes bs) = Metadata.drop_zeros bs.
Proof.
  induction bs as [|b bs IH]; [done|]. cbn [Metadata.drop_zeros].
  destruct (Byte.eqb b x00) eqn:E.
  - apply Byte.byte_dec_bl in E as ->. by rewrite SetBytes_zero.
  - apply Int_Bytes_SetBytes_head. intros ->. done.
Qed.

Lemma Int_Bytes_abs x : Int_Bytes (Z.abs x) = Int_Bytes x.
Proof.
  unfold Int_Bytes, BitLen. rewrite Z.abs_idemp.
  destruct (Z.eqb_spec x 0) as [->|Hne]; [done|].
  destruct (Z.eqb_spec (Z.abs x) 0); [lia|done].
Qed.

Lemma BitLen_pow x : 0 <= x -> x < 2 ^ BitLen x.
Proof.
  intros Hx. unfold BitLen. destruct (Z.eqb_spec x 0) as [->|Hne]; [done|].
  rewrite Z.abs_eq by done.
  apply Z.log2_lt_pow2; lia.
Qed.

Lemma SetBytes_Int_Bytes x : SetBytes (Int_Bytes x) = Z.abs x.
Proof.
  unfold Int_Bytes. apply SetBytes_be_bytes. split; [lia|].
  pose proof (BitLen_pow (Z.abs x) (Z.abs_nonneg x)) as Hlt.
  assert (BitLen (Z.abs x) = BitLen x) as Hb.
  { unfold BitLen. rewrite Z.abs_idemp.
    destruct (Z.eqb_spec x 0) as [->|?]; [done|].
    destruct (Z.eqb_spec (Z.abs x) 0); [lia|done]. }
  rewrite Hb in Hlt.
  assert (0 <= BitLen x).
  { unfold BitLen. destruct (x =? 0); [done|]. pose proof (Z.log2_nonneg (Z.abs x)). lia. }
  eapply Z.lt_le_trans; [exact Hlt|].
  change 256 with (2 ^ 8). rewrite <- Z.pow_mul_r by lia.
  apply Z.pow_le_mono_r; [lia|].
  rewrite Z2Nat.id by (apply Z.div_pos; lia).
  pose proof (Z.mul_div_le (BitLen x + 7) 8).
  pose proof (Z.mod_pos_bound (BitLen x + 7) 8).
  pose proof (Z.div_mod (BitLen x + 7) 8). lia.
Qed.

Lemma drop_zeros_length bs : (length (Metadata.drop_zeros bs) <= length bs)%nat.
Proof.
  induction bs as [|b bs IH]; simpl; [done|].
  destruct (Byte.eqb b x00); simpl; lia.
Qed.

Lemma Int_Bytes_head x b rest : Int_Bytes x = b :: rest -> b <> x00.
Proof.
  intros E.
  assert (Metadata.drop_zeros (b :: rest) = b :: rest) as Hfix.
  { by rewrite <- Int_Bytes_SetBytes, <- E, SetBytes_Int_Bytes, Int_Bytes_abs. }
  intros ->. simpl in Hfix.
  pose proof (drop_zeros_length rest) as Hl. rewrite Hfix in Hl. simpl in Hl. lia.
Qed.

Lemma Int_Bytes_full x :
  Metadata.full x <-> (Metadata.metadataLength <= length (Int_Bytes x))%nat.
Proof.
  unfold Metadata.full. rewrite <- SetBytes_Int_Bytes.
  change Metadata.metadataLength with 24%nat.
  pose proof (SetBytes_bound (Int_Bytes x)) as Hb. split.
  - intros Hfull.
    assert (256 ^ 23 < 256 ^ Z.of_nat (length (Int_Bytes x))) as Hlt by lia.
    apply Z.pow_lt_mono_r_iff in Hlt; lia.
  - intros Hlen. destruct (Int_Bytes x) as [|b rest] eqn:E; [simpl in Hlen; lia|].
    pose proof (Int_Bytes_head _ _ _ E) as Hne.
    assert (1 <= Z.of_N (Byte.to_N b)) as Hb1.
    { destruct (N.eq_dec (Byte.to_N b) 0%N) as [E0|]; [|lia].
      destruct Hne. apply to_N_inj. by rewrite E0. }
    rewrite SetBytes_cons. pose proof (SetBytes_bound rest). simpl in Hlen.
    assert (256 ^ 23 <= 256 ^ Z.of_nat (length rest))
      by (apply Z.pow_le_mono_r; lia).
    nia.
Qed.

(** ** [Bytes], [field] and the loop of [setField] *)

Lemma Bytes_length i : (Metadata.metadataLength <= length (Metadata.Bytes i))%nat.
Proof.
  unfold Metadata.Bytes.
  destruct (Nat.ltb_spec (length (Int_Bytes i)) Metadata.metadataLength); [|done].
  rewrite length_app, length_replicate. lia.
Qed.

Lemma Bytes_full i : Metadata.full i -> Metadata.Bytes i = Int_Bytes i.
Proof.
  intros Hfull%Int_Bytes_full. unfold Metadata.Bytes.
  destruct (Nat.ltb_spec (length (Int_Bytes i)) Metadata.metadataLength); [lia|done].
Qed.

Lemma Bytes_SetBytes b rest :
  b <> x00 -> (Metadata.metadataLength <= length (b :: rest))%nat ->
  Metadata.Bytes (SetBytes (b :: rest)) = b :: rest
  /\ Metadata.full (SetBytes (b :: rest)).
Proof.
  intros Hb Hlen.
  assert (Metadata.full (SetBytes (b :: rest))) as Hfull.
  { apply Int_Bytes_full. by rewrite Int_Bytes_SetBytes_head. }
  split; [|done]. by rewrite Bytes_full, Int_Bytes_SetBytes_head.
Qed.

Lemma field_length f i :
  Metadata.fits f -> length (Metadata.field f i) = Metadata.field_length f.
Proof.
  intros Hf. apply slice_length. pose proof (Bytes_length i). unfold Metadata.fits in Hf. lia.
Qed.

Lemma write_loop (g : nat -> byte) off bs m :
  (off + m <= length bs)%nat ->
  foldl (fun bs k => <[(k + off)%nat := g k]> bs) bs (seq 0 m)
  = take off bs ++ map g (seq 0 m) ++ drop (off + m) bs.
Proof.
  induction m as [|m IH]; intros Hm.
  - simpl. by rewrite Nat.add_0_r, take_drop.
  - rewrite seq_S, foldl_app, map_app, IH by lia. simpl.
    rewrite insert_app_r_alt by (rewrite length_take; lia).
    rewrite insert_app_r_alt by (rewrite length_take, length_map, length_seq; lia).
    rewrite length_take, length_map, length_seq.
    replace (m + off - off `min` length bs - m)%nat with 0%nat by lia.
    destruct (drop (off + m) bs) as [|x rest] eqn:E.
    { apply (f_equal length) in E. rewrite length_drop in E. simpl in E. lia. }
    simpl. rewrite <- app_assoc. simpl. do 3 f_equal.
    replace (off + S m)%nat with ((off + m) + 1)%nat by lia.
    by rewrite <- drop_drop, E.
Qed.

Lemma pushed_right len value :
  (length value <= len)%nat ->
  map (fun k => if (k <? len - length value)%nat then x00
                else default x00 (value !! (k - (len - length value))%nat))
      (seq 0 len)
  = replicate (len - length value) x00 ++ value.
Proof.
  intros Hv. apply list_eq. intros k. rewrite list_lookup_fmap.
  destruct (Nat.lt_ge_cases k len) as [Hk|Hk].
  - rewrite lookup_seq_lt by done. simpl.
    destruct (Nat.ltb_spec k (len - length value)) as [Hlt|Hge].
    + rewrite lookup_app_l by (by rewrite length_replicate).
      by rewrite lookup_replicate_2.
    + rewrite lookup_app_r by (by rewrite length_replicate).
      rewrite length_replicate.
      destruct (lookup_lt_is_Some_2 value (k - (len - length value))) as [x Hx]; [lia|].
      by rewrite Hx.
  - rewrite lookup_seq_ge by done. simpl. symmetry. apply lookup_ge_None.
    rewrite length_app, length_replicate. lia.
Qed.

Lemma write_field_splice f value bs :
  (Metadata.field_offset f + Metadata.field_length f <= length bs)%nat ->
  (length value <= Metadata.field_length f)%nat ->
  Metadata.write_field f value bs
  = splice (Metadata.field_offset f) (Metadata.field_length f)
      (replicate (Metadata.field_length f - length value) x00 ++ value) bs.
Proof.
  intros Hf Hv. unfold Metadata.write_field, splice.
  rewrite write_loop, pushed_right by done.
  rewrite copy_full; [done|].
  rewrite slice_length, length_app, length_replicate by done. lia.
Qed.

(** ** Writing a field of an attribute whose first byte is set *)

Lemma splice_head off n data b rest :
  (1 <= off)%nat -> exists rest', splice off n data (b :: rest) = b :: rest'.
Proof.
  intros Hoff. unfold splice. destruct off as [|off]; [lia|]. simpl. eauto.
Qed.

Lemma setField_full f value i :
  Metadata.full i -> Metadata.fits f -> (1 <= Metadata.field_offset f)%nat ->
  (length value <= Metadata.field_length f)%nat ->
  exists i',
    Metadata.setField f value i = Ok i'
    /\ Metadata.full i'
    /\ Metadata.Bytes i'
       = splice (Metadata.field_offset f) (Metadata.field_length f)
           (replicate (Metadata.field_length f - length value) x00 ++ value)
           (Metadata.Bytes i).
Proof.
  intros Hfull Hfits Hoff Hv. unfold Metadata.setField.
  destruct (Nat.ltb_spec (Metadata.field_length f) (length value)); [lia|].
  pose proof (Bytes_length i) as Hlen. unfold Metadata.fits in Hfits.
  cbv zeta.
  assert ((0 <? Metadata.field_length f)%nat
          && (length (Metadata.Bytes i)
              <? Metadata.field_offset f + Metadata.field_length f)%nat = false) as ->
    by (apply andb_false_iff; right; apply Nat.ltb_ge; lia).
  rewrite write_field_splice by lia.
  eexists. split; [reflexivity|].
  rewrite (Bytes_full _ Hfull) in *.
  destruct (Int_Bytes i) as [|b rest] eqn:E; [simpl in Hlen; unfold Metadata.metadataLength in Hlen; lia|].
  pose proof (Int_Bytes_head _ _ _ E) as Hb.
  destruct (splice_head (Metadata.field_offset f) (Metadata.field_length f)
              (replicate (Metadata.field_length f - length value) x00 ++ value)
              b rest Hoff) as [rest' Hs].
  assert (length (b :: rest') = length (b :: rest)) as Hl.
  { rewrite <- Hs. apply splice_length. lia. }
  rewrite Hs. destruct (Bytes_SetBytes b rest' Hb) as [HB HF]; [lia|]. done.
Qed.

(** X13.  On an attribute of at least 24 bytes, writing a value into a field that
    does not start at the first byte succeeds when the value is no longer
    than the field; the field then reads the value, zero bytes before it to
    the length of the field, and every field that shares no byte with it
    reads what it read before. *)
Theorem setField_round_trip f value i :
  Metadata.full i -> Metadata.fits f -> (1 <= Metadata.field_offset f)%nat ->
  (length value <= Metadata.field_length f)%nat ->
  exists i',
    Metadata.setField f value i = Ok i'
    /\ Metadata.full i'
    /\ Metadata.field f i'
       = replicate (Metadata.field_length f - length value) x00 ++ value
    /\ (forall g, Metadata.fits g -> Metadata.apart f g ->
          Metadata.field g i' = Metadata.field g i).
Proof.
  intros Hfull Hfits Hoff Hv.
  destruct (setField_full f value i Hfull Hfits Hoff Hv) as (i' & Hset & Hfull' & HB).
  exists i'. split; [done|]. split; [done|].
  pose proof (Bytes_length i) as Hlen. unfold Metadata.fits in Hfits.
  unfold Metadata.field. rewrite HB. split.
  - apply slice_splice; [lia|]. rewrite length_app, length_replicate. lia.
  - intros g Hg [Hbefore|Hafter].
    + apply slice_splice_before; lia.
    + apply slice_splice_after; lia.
Qed.

Lemma Uint16_shortToByte x : Uint16 (Metadata.shortToByte x) = x mod 65536.
Proof.
  unfold Metadata.shortToByte, Uint16.
  pose proof (Z.mod_pos_bound x 65536) as Hu.
  rewrite !to_N_byte_of_Z.
  - pose proof (Z.div_mod (x mod 65536) 256). lia.
  - apply Z.mod_pos_bound. lia.
  - split; [apply Z.div_pos; lia | apply Z.div_lt_upper_bound; lia].
Qed.

Lemma set_short f k i :
  Metadata.full i -> Metadata.fits f -> (1 <= Metadata.field_offset f)%nat ->
  Metadata.field_length f = 2%nat ->
  exists i',
    Metadata.setField f (Metadata.shortToByte k) i = Ok i'
    /\ Metadata.full i'
    /\ Uint16 (Metadata.field f i') = k mod 65536
    /\ (forall g, Metadata.fits g -> Metadata.apart f g ->
          Metadata.field g i' = Metadata.field g i).
Proof.
  intros Hfull Hfits Hoff Hlen.
  destruct (setField_full f (Metadata.shortToByte k) i Hfull Hfits Hoff)
    as (i' & Hset & Hfull' & HB); [simpl; lia|].
  exists i'. split; [done|]. split; [done|].
  pose proof (Bytes_length i) as HBl. unfold Metadata.fits in Hfits.
  unfold Metadata.field. rewrite HB. split.
  - rewrite slice_splice; [|lia|rewrite length_app, length_replicate; simpl; lia].
    rewrite Hlen. apply Uint16_shortToByte.
  - intros g Hg [Hbefore|Hafter].
    + apply slice_splice_before; lia.
    + apply slice_splice_after; lia.
Qed.

(** X14.  On an attribute of at least 24 bytes the key counter and the validity
    duration read back what was set, modulo 2^16, and setting the one leaves
    the other, the version, the signing date and the credential identifier
    as they were. *)
Theorem counters_round_trip i k :
  Metadata.full i ->
  (exists i',
     Metadata.setKeyCounter k i = Ok i'
     /\ Metadata.KeyCounter i' = k mod 65536
     /\ Metadata.ValidityDuration i' = Metadata.ValidityDuration i
     /\ Metadata.SigningDate i' = Metadata.SigningDate i
     /\ Metadata.Version i' = Metadata.Version i
     /\ Metadata.field Metadata.credentialID i'
        = Metadata.field Metadata.credentialID i)
  /\ (exists i',
        Metadata.setValidityDuration k i = Ok i'
        /\ Metadata.ValidityDuration i' = k mod 65536
        /\ Metadata.KeyCounter i' = Metadata.KeyCounter i
        /\ Metadata.SigningDate i' = Metadata.SigningDate i
        /\ Metadata.Version i' = Metadata.Version i
        /\ Metadata.field Metadata.credentialID i'
           = Metadata.field Metadata.credentialID i).
Proof.
  intros Hfull. split.
  - destruct (set_short Metadata.keyCounterField k i Hfull)
      as (i' & Hset & _ & Hread & Hframe);
      [unfold Metadata.fits, Metadata.metadataLength; simpl; lia | simpl; lia | done |].
    exists i'. split; [done|]. split; [done|].
    unfold Metadata.ValidityDuration, Metadata.SigningDate, Metadata.Version.
    rewrite !Hframe; [done|..];
      unfold Metadata.fits, Metadata.apart, Metadata.metadataLength; simpl; lia.
  - destruct (set_short Metadata.validityField k i Hfull)
      as (i' & Hset & _ & Hread & Hframe);
      [unfold Metadata.fits, Metadata.metadataLength; simpl; lia | simpl; lia | done |].
    exists i'. split; [done|]. split; [done|].
    unfold Metadata.KeyCounter, Metadata.SigningDate, Metadata.Version.
    rewrite !Hframe; [done|..];
      unfold Metadata.fits, Metadata.apart, Metadata.metadataLength; simpl; lia.
Qed.

(** ** An attribute whose first byte is zero *)

Lemma Bytes_of_SetBytes bs :
  Metadata.Bytes (SetBytes bs)
  = if (length (Metadata.drop_zeros bs) <? Metadata.metadataLength)%nat
    then Metadata.drop_zeros bs
         ++ replicate (Metadata.metadataLength - length (Metadata.drop_zeros bs)) x00
    else Metadata.drop_zeros bs.
Proof. unfold Metadata.Bytes. by rewrite Int_Bytes_SetBytes. Qed.

Lemma short_lost f hi lo :
  Metadata.field_length f = 2%nat ->
  Metadata.field_offset f = 4%nat \/ Metadata.field_offset f = 6%nat ->
  Uint16 (Metadata.field f
            (SetBytes (Metadata.write_field f [hi; lo] (replicate 24 x00)))) = 0.
Proof.
  intros Hlen Hoff. unfold Metadata.field. rewrite Bytes_of_SetBytes.
  destruct f as [len off]. simpl in Hlen, Hoff. subst len.
  destruct Hoff as [-> | ->].
  - change (Metadata.write_field (Metadata.mkField 2 4) [hi; lo] (replicate 24 x00))
      with (replicate 4 x00 ++ hi :: lo :: replicate 18 x00).
    simpl. destruct (Byte.eqb hi x00), (Byte.eqb lo x00); reflexivity.
  - change (Metadata.write_field (Metadata.mkField 2 6) [hi; lo] (replicate 24 x00))
      with (replicate 6 x00 ++ hi :: lo :: replicate 16 x00).
    simpl. destruct (Byte.eqb hi x00), (Byte.eqb lo x00); reflexivity.
Qed.

(** X15.  On the zero attribute, whose version byte is not set, a key counter or
    a validity duration that is set is lost: whatever was set, 0 is read
    back, because [SetBytes] drops the leading zero bytes and [Bytes] appends
    zero bytes at the end. *)
Theorem counters_lost_without_version k :
  (exists i', Metadata.setKeyCounter k 0 = Ok i' /\ Metadata.KeyCounter i' = 0)
  /\ (exists i', Metadata.setValidityDuration k 0 = Ok i'
                 /\ Metadata.ValidityDuration i' = 0).
Proof.
  split.
  - exists (SetBytes (Metadata.write_field Metadata.keyCounterField
                        [byte_of_Z (k mod 65536 / 256); byte_of_Z (k mod 65536 mod 256)]
                        (replicate 24 x00))).
    split; [reflexivity|].
    apply (short_lost Metadata.keyCounterField); [done|by right].
  - exists (SetBytes (Metadata.write_field Metadata.validityField
                        [byte_of_Z (k mod 65536 / 256); byte_of_Z (k mod 65536 mod 256)]
                        (replicate 24 x00))).
    split; [reflexivity|].
    apply (short_lost Metadata.validityField); [done|by left].
Qed.

(** ** A new metadata attribute *)

Lemma version_set :
  Metadata.setField Metadata.versionField Metadata.metadataVersion 0
  = Ok (2 * 256 ^ 23)
  /\ Metadata.full (2 * 256 ^ 23)
  /\ Metadata.field Metadata.versionField (2 * 256 ^ 23) = [x02].
Proof.
  split; [by vm_compute|]. split; [|by vm_compute].
  unfold Metadata.full. vm_compute. by intros [=].
Qed.

Lemma NewMetadataAttribute_run w :
  exists i,
    Metadata.NewMetadataAttribute w = (Ok i, tick w)
    /\ Metadata.full i
    /\ Metadata.field Metadata.versionField i = [x02]
    /\ Metadata.KeyCounter i = 0
    /\ Metadata.ValidityDuration i = 26
    /\ Metadata.SigningDate i
       = (Z.quot (reading w 0) Metadata.ExpiryFactor mod 65536) * Metadata.ExpiryFactor.
Proof.
  destruct version_set as (Hv & Hfull1 & Hver1).
  set (q := Z.quot (reading w 0) Metadata.ExpiryFactor).
  destruct (setField_full Metadata.signingDateField (Metadata.shortToByte q) _ Hfull1)
    as (i2 & Hset2 & Hfull2 & HB2);
    [unfold Metadata.fits, Metadata.metadataLength; simpl; lia | simpl; lia.. |].
  destruct (set_short Metadata.keyCounterField 0 i2 Hfull2)
    as (i3 & Hset3 & Hfull3 & Hkc & Hframe3);
    [unfold Metadata.fits, Metadata.metadataLength; simpl; lia | simpl; lia | done |].
  destruct (set_short Metadata.validityField Metadata.ValidityDefault i3 Hfull3)
    as (i4 & Hset4 & Hfull4 & Hval & Hframe4);
    [unfold Metadata.fits, Metadata.metadataLength; simpl; lia | simpl; lia | done |].
  exists i4.
  assert (forall g, Metadata.fits g ->
            Metadata.apart Metadata.keyCounterField g ->
            Metadata.apart Metadata.validityField g ->
            Metadata.field g i4 = Metadata.field g i2) as Hframe.
  { intros g Hg H3 H4. by rewrite Hframe4, Hframe3. }
  pose proof (Bytes_length (2 * 256 ^ 23)) as Hlen.
  unfold Metadata.metadataLength in Hlen. simpl in Hlen.
  split.
  { unfold Metadata.NewMetadataAttribute, Metadata.setSigningDate,
      Metadata.setKeyCounter, Metadata.setValidityDuration, bind, lift, time_Now.
    cbv zeta. rewrite Hv. cbv beta iota.
    unfold q, reading in Hset2. rewrite Nat.add_0_r in Hset2.
    by rewrite Hset2, Hset3, Hset4. }
  split; [done|]. split.
  { rewrite Hframe;
      [|unfold Metadata.fits, Metadata.metadataLength; simpl; lia
       |unfold Metadata.apart; simpl; lia..].
    unfold Metadata.field at 1. rewrite HB2.
    rewrite slice_splice_before by (simpl; lia). exact Hver1. }
  split.
  { unfold Metadata.KeyCounter.
    rewrite Hframe4; [by rewrite Hkc|unfold Metadata.fits, Metadata.metadataLength; simpl; lia
                     |unfold Metadata.apart; simpl; lia]. }
  split; [unfold Metadata.ValidityDuration; by rewrite Hval|].
  unfold Metadata.SigningDate.
  rewrite Hframe;
    [|unfold Metadata.fits, Metadata.metadataLength; simpl; lia
     |unfold Metadata.apart; simpl; lia..].
  unfold Metadata.field. rewrite HB2.
  rewrite slice_splice by (simpl; lia).
  replace (drop 1 _) with (Metadata.shortToByte q) by reflexivity.
  by rewrite Uint16_shortToByte.
Qed.

(** X16.  [NewMetadataAttribute] never panics and reads the clock once; the
    attribute it returns has version 2, key counter 0, a validity of 26
    weeks, and as signing date the week of the clock reading (the week
    number modulo 2^16). *)
Theorem NewMetadataAttribute_fields w :
  exists i,
    Metadata.NewMetadataAttribute w = (Ok i, tick w)
    /\ Metadata.Version i = x02
    /\ Metadata.KeyCounter i = 0
    /\ Metadata.ValidityDuration i = 26
    /\ Metadata.SigningDate i
       = (Z.quot (reading w 0) Metadata.ExpiryFactor mod 65536) * Metadata.ExpiryFactor.
Proof.
  destruct (NewMetadataAttribute_run w) as (i & Hrun & _ & Hver & Hkc & Hval & Hsd).
  exists i. split; [exact Hrun|]. split; [|by auto].
  unfold Metadata.Version. by rewrite Hver.
Qed.

Lemma Uint16_range b : 0 <= Uint16 b < 65536.
Proof.
  unfold Uint16. destruct b as [|b0 [|b1 rest]]; [lia..|].
  pose proof (to_N_range b0). pose proof (to_N_range b1). lia.
Qed.

Lemma int_wrap_small `{IntSize} x :
  - 2 ^ 31 <= x < 2 ^ 31 -> int_wrap x = x.
Proof.
  intros Hx. unfold int_wrap. destruct int_size; unfold int_bits.
  - change (2 ^ (32 - 1)) with 2147483648. change (2 ^ 32) with 4294967296.
    rewrite Z.mod_small; lia.
  - change (2 ^ (64 - 1)) with 9223372036854775808.
    change (2 ^ 64) with 18446744073709551616.
    rewrite Z.mod_small; lia.
Qed.

Lemma int_wrap_64 `{IntSize} x :
  int_size = Int64 -> - 2 ^ 63 <= x < 2 ^ 63 -> int_wrap x = x.
Proof.
  intros Hs Hx. unfold int_wrap. rewrite Hs. unfold int_bits.
  change (2 ^ (64 - 1)) with 9223372036854775808.
  change (2 ^ 64) with 18446744073709551616.
  rewrite Z.mod_small; lia.
Qed.

Lemma int_wrap_32 `{IntSize} x :
  int_size = Int32 -> 2 ^ 31 <= x < 2 ^ 32 -> int_wrap x = x - 2 ^ 32.
Proof.
  intros Hs Hx. unfold int_wrap. rewrite Hs. unfold int_bits.
  change (2 ^ (32 - 1)) with 2147483648. change (2 ^ 32) with 4294967296 in *.
  change (2 ^ 31) with 2147483648 in *.
  replace (x + 2147483648) with (x - 2147483648 + 1 * 4294967296) by lia.
  rewrite Z.mod_add by done. rewrite Z.mod_small; lia.
Qed.

Lemma IsValidOn_Unix `{IntSize} i t :
  Metadata.IsValidOn i t = true <-> Unix t < Metadata.Expiry i.
Proof.
  unfold Metadata.IsValidOn, Unix. rewrite Z.ltb_lt.
  pose proof (Z.div_mod t 1000000000). pose proof (Z.mod_pos_bound t 1000000000).
  nia.
Qed.

(** X17.  On either width of [int] an attribute is valid at a time exactly
    when the Unix second of that time is before its expiry, so no longer in
    the second of expiry itself.  Where [int] has 64 bits, or the validity
    is of at most 3550 weeks, the expiry is the signing date and the
    validity added up, a whole number of weeks, at most 131070 of them.
    Where [int] has 32 bits a validity of 3551 to 7101 weeks overflows the
    product: the expiry then lies [2 ^ 32] seconds earlier, before the
    signing date. *)
Theorem validity_window `{IntSize} i :
  (forall t, Metadata.IsValidOn i t = true <-> Unix t < Metadata.Expiry i)
  /\ (int_size = Int64 \/ Metadata.ValidityDuration i <= 3550 ->
        Metadata.Expiry i
        = Metadata.SigningDate i + Metadata.ValidityDuration i * Metadata.ExpiryFactor
        /\ Metadata.Expiry i mod Metadata.ExpiryFactor = 0
        /\ 0 <= Metadata.Expiry i <= 131070 * Metadata.ExpiryFactor)
  /\ (int_size = Int32 -> 3551 <= Metadata.ValidityDuration i <= 7101 ->
        Metadata.Expiry i
        = Metadata.SigningDate i + Metadata.ValidityDuration i * Metadata.ExpiryFactor
          - 2 ^ 32
        /\ Metadata.Expiry i < Metadata.SigningDate i).
Proof.
  split; [intros t; apply IsValidOn_Unix|].
  unfold Metadata.Expiry, Metadata.SigningDate, Metadata.ValidityDuration.
  set (a := Uint16 (drop 1 (Metadata.field Metadata.signingDateField i))).
  set (b := Uint16 (Metadata.field Metadata.validityField i)).
  pose proof (Uint16_range (drop 1 (Metadata.field Metadata.signingDateField i))) as Ha.
  pose proof (Uint16_range (Metadata.field Metadata.validityField i)) as Hb.
  fold a in Ha. fold b in Hb. unfold Metadata.ExpiryFactor.
  change (60 * 60 * 24 * 7) with 604800. split.
  - intros Hfit.
    assert (int_wrap (b * 604800) = b * 604800) as ->.
    { destruct Hfit as [H64|Hsmall].
      - apply int_wrap_64; [done|]. lia.
      - apply int_wrap_small. lia. }
    split; [done|]. split; [|lia].
    rewrite <- Z.mul_add_distr_r. by apply Z.mod_mul.
  - intros H32 Hbig.
    rewrite int_wrap_32 by (change (2 ^ 31) with 2147483648;
                            change (2 ^ 32) with 4294967296; done || lia).
    change (2 ^ 32) with 4294967296. lia.
Qed.

(** X18.  An attribute made while the clock reads a time from 1970 on, before
    week 65536, is signed in the week of that reading, is valid at once, and
    expires more than 25 and at most 26 weeks after the reading, on either
    width of [int]. *)
Theorem fresh_attribute_validity `{IntSize} w i w' :
  Metadata.NewMetadataAttribute w = (Ok i, w') ->
  0 <= reading w 0 < 65536 * Metadata.ExpiryFactor ->
  Metadata.SigningDate i <= reading w 0 < Metadata.SigningDate i + Metadata.ExpiryFactor
  /\ Metadata.Expiry i = Metadata.SigningDate i + 26 * Metadata.ExpiryFactor
  /\ reading w 0 + 25 * Metadata.ExpiryFactor < Metadata.Expiry i
     <= reading w 0 + 26 * Metadata.ExpiryFactor
  /\ Metadata.IsValidOn i (clock w (ticks w)) = true.
Proof.
  intros Hnew Hnow.
  destruct (NewMetadataAttribute_run w) as (i0 & Hrun & _ & _ & _ & Hval & Hsd).
  rewrite Hnew in Hrun. injection Hrun as <- _.
  unfold Metadata.ExpiryFactor in *.
  change (60 * 60 * 24 * 7) with 604800 in *.
  rewrite Z.quot_div_nonneg in Hsd by lia.
  pose proof (Z.div_mod (reading w 0) 604800).
  pose proof (Z.mod_pos_bound (reading w 0) 604800).
  assert (0 <= reading w 0 / 604800 < 65536) as Hq
    by (split; [apply Z.div_pos; lia | apply Z.div_lt_upper_bound; lia]).
  rewrite Z.mod_small in Hsd by done.
  assert (Metadata.Expiry i = Metadata.SigningDate i + 26 * 604800) as Hexp.
  { unfold Metadata.Expiry. rewrite Hval. unfold Metadata.ExpiryFactor.
    f_equal. apply int_wrap_small. lia. }
  split; [lia|]. split; [done|]. split; [lia|].
  apply IsValidOn_Unix. unfold reading in *. rewrite Nat.add_0_r in *. lia.
Qed.

(** ** Attribute lists *)

(** X19.  [Strings] gives, for every attribute after the metadata attribute, the
    string of the bytes of its integer; it computes this once and answers
    from what it kept afterwards.  For attributes read from the bytes of
    strings the leading zero bytes of a string are lost, and strings without
    such bytes come back as they were.  Both functions panic on an empty
    list of integers. *)
Theorem Strings_round_trip m ss :
  exists al al' out,
    Metadata.NewAttributeListFromInts
      (m :: map (fun s => SetBytes (list_byte_of_string s)) ss) = Ok al
    /\ Metadata.strings al = None
    /\ Metadata.Strings al = Ok (out, al')
    /\ Metadata.Strings al' = Ok (out, al')
    /\ Metadata.Ints al' = Metadata.Ints al
    /\ out = map (fun s => string_of_list_byte
                             (Metadata.drop_zeros (list_byte_of_string s))) ss
    /\ (Forall (fun s => head (list_byte_of_string s) <> Some x00) ss -> out = ss)
    /\ is_Ok (Metadata.NewAttributeListFromInts []) = false
    /\ is_Ok (Metadata.Strings (Metadata.mkAttributeList [] None)) = false.
Proof.
  set (ints := m :: map (fun s => SetBytes (list_byte_of_string s)) ss).
  set (out := map (fun s => string_of_list_byte
                              (Metadata.drop_zeros (list_byte_of_string s))) ss).
  assert (map (fun num => string_of_list_byte (Int_Bytes num))
              (map (fun s => SetBytes (list_byte_of_string s)) ss) = out) as Hout.
  { unfold out. rewrite map_map. apply map_ext. intros s.
    by rewrite Int_Bytes_SetBytes. }
  exists (Metadata.mkAttributeList ints None),
         (Metadata.mkAttributeList ints (Some out)), out.
  split; [done|]. split; [done|]. split.
  { unfold Metadata.Strings. cbn [Metadata.strings Metadata.Ints ints].
    by rewrite Hout. }
  split; [done|]. split; [done|]. split; [done|]. split; [|done].
  intros Hall. unfold out. rewrite <- (map_id ss) at 2.
  apply map_ext_Forall. eapply Forall_impl; [exact Hall|].
  intros s Hs. cbn beta in Hs |- *.
  rewrite <- (string_of_list_byte_of_string s) at 2. f_equal.
  destruct (list_byte_of_string s) as [|b rest]; [done|].
  cbn [Metadata.drop_zeros].
  destruct (Byte.eqb b x00) eqn:E; [|done].
  apply Byte.byte_dec_bl in E as ->. by destruct Hs.
Qed.

(** * The further properties at work *)

Section MoreRuns.
Import Ideal Sample.
#[local] Existing Instance opaque.
#[local] Existing Instance library.

(** The commitment of the session: made from the packet's secret and the
    trusted key, stored under the id drawn after it, and removed by the
    response to the challenge 42. *)
Lemma commitment_store_frame_witness :
  GenerateCommitments core ep1 token1 [keyID1] world2
  = (Ok (commitments1, commitID1), world3)
  /\ commitID1 = le_uint (take 8 entropy_commit1)
  /\ commitmentData world3 = <[commitID1 := commitSecret1]> (commitmentData world2)
  /\ commitmentData (snd (GenerateResponse core ep1 token1 commitID1 42 keyID1 world3))
     = delete commitID1 (commitmentData world3).
Proof.
  destruct (commitment_store_frame core) as (_ & Hrun & Hresp & _).
  assert (GenerateCommitments core ep1 token1 [keyID1] world2
          = (Ok (commitments1, le_uint (take 8 entropy_commit1)),
             mkWorld (<[le_uint (take 8 entropy_commit1) := commitSecret1]>
                        (commitmentData world2))
                     (drop 8 entropy_commit1) (clock world2) (3 + ticks world2)))
    as Hgc.
  { apply (Hrun ep1 token1 [keyID1] world2 [11] packet1 commitSecret1 commitments1
             entropy_commit1); [by vm_compute..|vm_compute; lia]. }
  split; [rewrite Hgc; by vm_compute|].
  split; [by vm_compute|]. split; [by vm_compute|].
  apply Hresp, ideal_checks_pass. by vm_compute.
Defined.

(** A list with the trusted key and an unknown one is refused. *)
Lemma GenerateCommitments_unknown_key_witness :
  GenerateCommitments core ep1 token1 [keyID1; keyID2] world2
  = (Err ErrKeyNotFound, world2).
Proof.
  apply (GenerateCommitments_unknown_key core ep1 token1 [keyID1; keyID2] keyID2 world2).
  - apply list_elem_of_further, list_elem_of_here.
  - by vm_compute.
Defined.

(** The commitment of the session and the response to the challenge 42. *)
Lemma commit_then_respond_witness :
  exists keyList p commitSecret e,
    resolve core [keyID1] = Some keyList
    /\ aead_Open (cipherKeys core) ep1 = Ok p
    /\ NewKeyshareCommitments (Packet.keyshareSecret secretLen p) keyList (entropy world2)
       = (Ok (commitSecret, commitments1), e)
    /\ commitmentData world3 !! commitID1 = Some commitSecret
    /\ GenerateResponse core ep1 token1 commitID1 42 keyID1 world3
       = (SignedString
            (newResponseToken core
               (KeyshareResponse (Packet.keyshareSecret secretLen packet1) commitSecret
                  42 11)
               (clock (tick (tick (tick world3))) (ticks (tick (tick (tick world3))))))
            (signKey core),
          tick (set_commitmentData (delete commitID1 (commitmentData world3))
                  (tick (tick (tick world3))))).
Proof.
  apply (commit_then_respond core ep1 token1 [keyID1] world2 commitments1 commitID1
           world3 ep1 token1 42 keyID1 11 packet1 (tick (tick (tick world3))));
    by vm_compute.
Defined.

(** With the challenge 42: an unknown key on the one hand, the unsigned
    token on the other; the commitment of the session is still stored. *)
Lemma GenerateResponse_errors_witness :
  GenerateResponse core ep1 token1 commitID1 42 keyID2 world3
  = (Err ErrKeyNotFound, world3)
  /\ GenerateResponse core ep1 token_none commitID1 42 keyID1 world3
     = (Err ErrInvalidJWT, snd (verifyAccess core ep1 token_none world3))
  /\ commitmentData (snd (verifyAccess core ep1 token_none world3))
     = commitmentData world3.
Proof.
  split.
  - apply (GenerateResponse_errors core ep1 token1 commitID1 42 keyID2 world3);
      [lia | by vm_compute].
  - apply (GenerateResponse_errors core ep1 token_none commitID1 42 keyID1 world3)
      with (key := 11); [lia | by vm_compute | by vm_compute].
Defined.

(** The packet of the new PIN answers "5678" and refuses "1234". *)
Lemma ChangePin_then_ValidatePin_witness :
  (exists tok, ValidatePin core ep2 "5678" "u" world4 = (Ok tok, tick (tick world4)))
  /\ ValidatePin core ep2 "1234" "u" world4 = (Err ErrInvalidPin, world4).
Proof.
  destruct (ChangePin_then_ValidatePin core ep1 "1234" "5678" world3 ep2 world4
              "u" world4) as [Hok Hbad].
  - apply ideal_cipher_round_trip.
  - apply ideal_packets_sized.
  - apply ideal_signs.
  - by vm_compute.
  - split; [exact Hok|]. apply Hbad; [simpl; lia|].
    intros [k [E|E]]; destruct k as [|[|[|[|k]]]]; by vm_compute in E.
Defined.

(** The token of the session is accepted in the second of its issue and
    refused one second after its expiry. *)
Lemma issued_token_lifetime_witness :
  ValidateJWT core ep1 token1 world2 = (Ok tt, tick (tick (tick world2)))
  /\ fst (ValidateJWT core ep1 token1 world_late) = Err ErrInvalidJWT.
Proof.
  split.
  - apply (issued_token_lifetime core ep1 "1234" "u" world1 token1 world2 world2).
    + apply ideal_base64_round_trip.
    + apply ideal_jws_round_trip.
    + apply ideal_signature_valid.
    + by vm_compute.
    + by vm_compute.
    + intros i _. by vm_compute.
    + intros i _. by vm_compute.
  - apply (issued_token_lifetime core ep1 "1234" "u" world1 token1 world2 world_late)
      with (i := 0%nat).
    + apply ideal_base64_round_trip.
    + apply ideal_jws_round_trip.
    + apply ideal_signature_valid.
    + by vm_compute.
    + by vm_compute.
    + lia.
    + by vm_compute.
Defined.

(** The packet built around the secret 5. *)
Lemma DangerousBuild_packet_witness :
  exists p padded,
    padPin "1234" = Ok padded
    /\ aead_Open (cipherKeys core) ep3 = Ok p
    /\ Packet.pin p = padded
    /\ Packet.keyshareSecret secretLen p = 5
    /\ Packet.id secretLen p = take 32 (entropy world0)
    /\ length (Packet.id secretLen p) = 32%nat.
Proof.
  apply (DangerousBuild_packet core "1234" 5 world0 ep3 world5).
  - apply ideal_cipher_round_trip.
  - by vm_compute.
Defined.

(** The packet of the session is the packet built around the secret
    drawn first. *)
Lemma GenerateKeyshareSecret_as_build_witness :
  GenerateKeyshareSecret core "1234" world0
  = match NewKeyshareSecret (entropy world0) with
    | (Ok secret, e) => DangerousBuildKeyshareSecret core "1234" secret (set_entropy e world0)
    | (Err err, e) => (Err err, set_entropy e world0)
    end.
Proof.
  apply (GenerateKeyshareSecret_as_build core "1234" world0). simpl. lia.
Defined.

(** A PIN of 65 bytes. *)
Lemma build_pin_too_long_witness :
  GenerateKeyshareSecret core long_pin world0 = (Err ErrPinTooLong, world0)
  /\ forall secret,
       DangerousBuildKeyshareSecret core long_pin secret world0
       = (Err ErrPinTooLong, world0).
Proof.
  apply (build_pin_too_long core long_pin world0). vm_compute. lia.
Defined.

(** A response for the second commitment and the making of it leave the
    commitment of the session where it is. *)
Lemma other_commits_untouched_witness :
  commitmentData
    (snd (GenerateResponse core ep1 token1 commitID2 42 keyID1 world6)) !! commitID1
  = commitmentData world6 !! commitID1
  /\ commitmentData world6 !! commitID1 = commitmentData world3 !! commitID1
  /\ is_Some (commitmentData world3 !! commitID1).
Proof.
  destruct (other_commits_untouched core commitID1) as [Hresp Hcommit].
  split; [apply Hresp; by vm_compute|]. split.
  - apply (Hcommit ep1 token1 [keyID1] world3 commitments2 commitID2 world6);
      by vm_compute.
  - vm_compute. by eexists.
Defined.

(** A PIN of 65 bytes, an empty packet, the PIN "9999". *)
Lemma ValidatePin_errors_witness :
  ValidatePin core ep1 long_pin "u" world1 = (Err ErrPinTooLong, world1)
  /\ ValidatePin core [] "1234" "u" world1 = (Err (ErrOther "invalid packet"), world1)
  /\ ValidatePin core ep1 "9999" "u" world1 = (Err ErrInvalidPin, world1).
Proof.
  split; [|split].
  - destruct (ValidatePin_errors core ep1 long_pin "u" world1) as (Hlong & _ & _).
    apply Hlong. vm_compute. lia.
  - destruct (ValidatePin_errors core [] "1234" "u" world1) as (_ & Hopen & _).
    apply Hopen; [simpl; lia | by vm_compute].
  - destruct (ValidatePin_errors core ep1 "9999" "u" world1) as (_ & _ & Hpin).
    apply (Hpin packet1 (or_default [] (padPin "9999")));
      by vm_compute.
Defined.

(** Old PIN of 65 bytes, new PIN of 65 bytes, an empty packet, the old
    PIN "9999". *)
Lemma ChangePin_errors_witness :
  ChangePin core ep1 long_pin "5678" world3 = (Err ErrPinTooLong, world3)
  /\ ChangePin core [] "1234" long_pin world3 = (Err ErrPinTooLong, world3)
  /\ ChangePin core [] "1234" "5678" world3 = (Err (ErrOther "invalid packet"), world3)
  /\ ChangePin core ep1 "9999" "5678" world3 = (Err ErrInvalidPin, world3).
Proof.
  split; [|split; [|split]].
  - destruct (ChangePin_errors core ep1 long_pin "5678" world3) as (Hold & _).
    apply Hold. vm_compute. lia.
  - destruct (ChangePin_errors core [] "1234" long_pin world3) as (_ & Hnew & _).
    apply Hnew; [simpl; lia | vm_compute; lia].
  - destruct (ChangePin_errors core [] "1234" "5678" world3) as (_ & _ & Hopen & _).
    apply Hopen; [simpl; lia | simpl; lia | by vm_compute].
  - destruct (ChangePin_errors core ep1 "9999" "5678" world3) as (_ & _ & _ & Hpin).
    apply (Hpin packet1 (or_default [] (padPin "9999")));
      [by vm_compute | simpl; lia | by vm_compute | by vm_compute].
Defined.
End MoreRuns.

(** Writing one byte into the key counter of the sample attribute. *)
Lemma setField_round_trip_witness :
  exists i',
    Metadata.setField Metadata.keyCounterField [x07] Sample.attribute1 = Ok i'
    /\ Metadata.full i'
    /\ Metadata.field Metadata.keyCounterField i' = [x00; x07]
    /\ (forall g, Metadata.fits g -> Metadata.apart Metadata.keyCounterField g ->
          Metadata.field g i' = Metadata.field g Sample.attribute1).
Proof.
  apply (setField_round_trip Metadata.keyCounterField [x07] Sample.attribute1).
  - unfold Metadata.full. by vm_compute.
  - unfold Metadata.fits. vm_compute. lia.
  - vm_compute. lia.
  - vm_compute. lia.
Defined.

(** Key counter 3 and validity 70000 (read back as 4464) on the sample
    attribute. *)
Lemma counters_round_trip_witness :
  (exists i',
     Metadata.setKeyCounter 3 Sample.attribute1 = Ok i'
     /\ Metadata.KeyCounter i' = 3 mod 65536
     /\ Metadata.ValidityDuration i' = Metadata.ValidityDuration Sample.attribute1
     /\ Metadata.SigningDate i' = Metadata.SigningDate Sample.attribute1
     /\ Metadata.Version i' = Metadata.Version Sample.attribute1
     /\ Metadata.field Metadata.credentialID i'
        = Metadata.field Metadata.credentialID Sample.attribute1)
  /\ (exists i',
        Metadata.setValidityDuration 70000 Sample.attribute1 = Ok i'
        /\ Metadata.ValidityDuration i' = 70000 mod 65536
        /\ Metadata.KeyCounter i' = Metadata.KeyCounter Sample.attribute1
        /\ Metadata.SigningDate i' = Metadata.SigningDate Sample.attribute1
        /\ Metadata.Version i' = Metadata.Version Sample.attribute1
        /\ Metadata.field Metadata.credentialID i'
           = Metadata.field Metadata.credentialID Sample.attribute1).
Proof.
  split.
  - apply (counters_round_trip Sample.attribute1 3). unfold Metadata.full. by vm_compute.
  - apply (counters_round_trip Sample.attribute1 70000). unfold Metadata.full. by vm_compute.
Defined.

Section MetadataRuns.
Import Sample.
#[local] Existing Instance platform32.

(** With a 32-bit [int]: the sample attribute, of 26 weeks, expires as the
    sum says; with 3551 weeks it expires before it was signed. *)
Lemma validity_window_witness :
  (Metadata.Expiry attribute1
   = Metadata.SigningDate attribute1
     + Metadata.ValidityDuration attribute1 * Metadata.ExpiryFactor
   /\ Metadata.Expiry attribute1 mod Metadata.ExpiryFactor = 0
   /\ 0 <= Metadata.Expiry attribute1 <= 131070 * Metadata.ExpiryFactor)
  /\ (Metadata.Expiry attribute2
      = Metadata.SigningDate attribute2
        + Metadata.ValidityDuration attribute2 * Metadata.ExpiryFactor - 2 ^ 32
      /\ Metadata.Expiry attribute2 < Metadata.SigningDate attribute2).
Proof.
  split.
  - destruct (validity_window attribute1) as (_ & Hfit & _).
    apply Hfit. right. by vm_compute.
  - destruct (validity_window attribute2) as (_ & _ & Hwrap).
    apply Hwrap; [reflexivity|]. by vm_compute.
Defined.

(** The sample attribute: signed in week 2810, valid at second 1700000000,
    expiring 26 weeks after the start of that week. *)
Lemma fresh_attribute_validity_witness :
  Metadata.SigningDate attribute1 <= reading Ideal.world0 0
    < Metadata.SigningDate attribute1 + Metadata.ExpiryFactor
  /\ Metadata.Expiry attribute1
     = Metadata.SigningDate attribute1 + 26 * Metadata.ExpiryFactor
  /\ reading Ideal.world0 0 + 25 * Metadata.ExpiryFactor
       < Metadata.Expiry attribute1
       <= reading Ideal.world0 0 + 26 * Metadata.ExpiryFactor
  /\ Metadata.IsValidOn attribute1 (clock Ideal.world0 (ticks Ideal.world0)) = true.
Proof.
  apply (fresh_attribute_validity Ideal.world0 attribute1 (tick Ideal.world0)).
  - by vm_compute.
  - vm_compute. split; [by intros [=]|done].
Defined.
End MetadataRuns.
